(** * plexarr: the playlist parser and the guide generator of [plexarr/utils.py]

    A shallow embedding of [m3u_to_json] and [gen_xmltv_xml] together with
    the fragment of Python they run on: [str.splitlines], list slicing,
    [zip], the backtracking regular-expression engine of [re] restricted to
    the constructs the two patterns use, insertion-ordered dictionaries and
    [json.dumps].

    Text is a list of characters.  Characters are the 256 code points of
    Latin-1 (Rocq's [ascii]); on that range [\d] is the ten digits and the
    line boundaries of [splitlines] are the eight listed in [is_linebreak]. *)

From Stdlib Require Import Ascii String List Arith Bool Lia.
Import ListNotations.

Set Warnings "-register-all".

(** ** Text *)

Definition text := list ascii.

Definition str (s : string) : text := list_ascii_of_string s.
Arguments str s%_string.

Definition dq : ascii := "034"%char.   (* the double quote *)
Definition nl : ascii := "010"%char.   (* line feed *)
Definition cr : ascii := "013"%char.   (* carriage return *)

Definition quoted (s : text) : text := dq :: s ++ [dq].

Fixpoint text_eqb (a b : text) : bool :=
  match a, b with
  | [], [] => true
  | x :: a', y :: b' => Ascii.eqb x y && text_eqb a' b'
  | _, _ => false
  end.

Fixpoint strip_prefix (p s : text) : option text :=
  match p with
  | [] => Some s
  | x :: p' =>
      match s with
      | y :: s' => if Ascii.eqb x y then strip_prefix p' s' else None
      | [] => None
      end
  end.

(** ** Exceptions *)

Inductive exn : Set := IndexError | AttributeError | ValueError.

Inductive result (A : Type) : Type :=
| Ok (a : A)
| Raise (e : exn).
Arguments Ok {A} a.
Arguments Raise {A} e.

Definition bind {A B : Type} (m : result A) (f : A -> result B) : result B :=
  match m with
  | Ok a => f a
  | Raise e => Raise e
  end.

Notation "x <- m ;; k" := (bind m (fun x => k))
  (at level 61, m at next level, right associativity).

(** ** [str.splitlines] *)

Definition is_linebreak (c : ascii) : bool :=
  let n := nat_of_ascii c in
  (n =? 10) || (n =? 13) || (n =? 11) || (n =? 12)
  || (n =? 28) || (n =? 29) || (n =? 30) || (n =? 133).

(** [splitlines_from acc s]: [acc] is the current line, reversed.  A line
    boundary closes the line, [\r\n] counting as one boundary; the end of the
    text closes a line only if one is open, so no empty last line is made. *)
Fixpoint splitlines_from (acc s : text) {struct s} : list text :=
  match s with
  | [] => match acc with [] => [] | _ => [rev acc] end
  | c :: s' =>
      if is_linebreak c then
        rev acc ::
          (if Ascii.eqb c cr then
             match s' with
             | d :: s'' => if Ascii.eqb d nl then splitlines_from [] s''
                           else splitlines_from [] s'
             | [] => splitlines_from [] s'
             end
           else splitlines_from [] s')
      else splitlines_from (c :: acc) s'
  end.

Definition splitlines (s : text) : list text := splitlines_from [] s.

(** ** Slices and [zip] *)

(** [slice_step start step l] is [l[start::step]] for [step >= 1]. *)
Fixpoint slice_step (skip step : nat) (l : list text) : list text :=
  match l with
  | [] => []
  | x :: t =>
      match skip with
      | 0 => x :: slice_step (step - 1) step t
      | S j => slice_step j step t
      end
  end.

Definition zip (a b : list text) : list (text * text) := combine a b.

(** A pair joined with a line feed. *)
Definition join_nl (p : text * text) : text := fst p ++ nl :: snd p.

(** ** Regular expressions

    The constructs of the two patterns: literals, a character class, the
    greedy quantifiers [*] and [+] on a class, concatenation, alternation
    and groups, named or not. *)

Inductive cclass : Set :=
| CDot                 (* .     any character but a line feed *)
| CDigit               (* \d *)
| COne (c : ascii)     (* [c] *)
| CNot (c : ascii).    (* [^c]  any other character, line feed included *)

Definition is_digit (c : ascii) : bool :=
  (48 <=? nat_of_ascii c) && (nat_of_ascii c <=? 57).

Definition cmem (cl : cclass) (c : ascii) : bool :=
  match cl with
  | CDot => negb (Ascii.eqb c nl)
  | CDigit => is_digit c
  | COne x => Ascii.eqb c x
  | CNot x => negb (Ascii.eqb c x)
  end.

Inductive regex : Type :=
| Lit (s : text)
| One (cl : cclass)
| Star (cl : cclass)
| Plus (cl : cclass)
| Seq (a b : regex)
| Alt (a b : regex)
| Group (name : option text) (a : regex).

Declare Scope regex_scope.
Delimit Scope regex_scope with re.
Infix ">>" := Seq (at level 41, right associativity) : regex_scope.
Infix "<|>" := Alt (at level 51, right associativity) : regex_scope.

(** The text captured by each named group that took part in the match,
    most recent first.  Unnamed groups are numbered in Python and
    [groupdict] does not report them: no record of them is kept. *)
Definition caps := list (text * text).

Fixpoint cap_get (n : text) (g : caps) : option text :=
  match g with
  | [] => None
  | (n', v) :: g' => if text_eqb n n' then Some v else cap_get n g'
  end.

Section Matcher.
Variable R : Type.

(** Greedy repetition of a class: the longest run first, giving back one
    character at a time while the rest of the pattern fails. *)
Fixpoint star (cl : cclass) (s : text) (k : text -> option R) : option R :=
  match s with
  | c :: s' =>
      if cmem cl c then
        match star cl s' k with
        | Some r => Some r
        | None => k s
        end
      else k s
  | [] => k []
  end.

(** Backtracking matcher in continuation-passing style: [k] is the rest
    of the pattern, run on the text left and the groups captured so far. *)
Fixpoint exec (r : regex) (s : text) (g : caps)
         (k : text -> caps -> option R) : option R :=
  match r with
  | Lit l =>
      match strip_prefix l s with
      | Some s' => k s' g
      | None => None
      end
  | One cl =>
      match s with
      | c :: s' => if cmem cl c then k s' g else None
      | [] => None
      end
  | Star cl => star cl s (fun s' => k s' g)
  | Plus cl =>
      match s with
      | c :: s' => if cmem cl c then star cl s' (fun s' => k s' g) else None
      | [] => None
      end
  | Seq a b => exec a s g (fun s' g' => exec b s' g' k)
  | Alt a b =>
      match exec a s g k with
      | Some x => Some x
      | None => exec b s g k
      end
  | Group (Some n) a =>
      exec a s g
        (fun s' g' => k s' ((n, firstn (length s - length s') s) :: g'))
  | Group None a => exec a s g k
  end.
End Matcher.
Arguments star {R} cl s k.
Arguments exec {R} r s g k.

(** A match object: the text after the match and the groups. *)
Record rmatch : Type := { m_rest : text; m_caps : caps }.

(** A match starting at the first character of [s]. *)
Definition match_here (r : regex) (s : text) : option rmatch :=
  exec r s [] (fun s' g => Some {| m_rest := s'; m_caps := g |}).

(** [re.search]: the first position, from the left, with a match. *)
Fixpoint re_search (r : regex) (s : text) : option rmatch :=
  match match_here r s with
  | Some m => Some m
  | None =>
      match s with
      | [] => None
      | _ :: s' => re_search r s'
      end
  end.

(** [finditer]: the matches from left to right, each search resuming where
    the previous match ended.  After an empty match the scan moves one
    character on; the stream pattern, the only one [finditer] is run with,
    has no empty match ([stream_match_nonempty]).  Every step shortens the
    text, so [S (length s)] steps reach its end ([finditer_step]). *)
Fixpoint finditer_fuel (n : nat) (r : regex) (s : text) : list rmatch :=
  match n with
  | 0 => []
  | S n' =>
      match match_here r s with
      | Some m =>
          m :: (if length (m_rest m) <? length s
                then finditer_fuel n' r (m_rest m)
                else match s with
                     | [] => []
                     | _ :: s' => finditer_fuel n' r s'
                     end)
      | None =>
          match s with
          | [] => []
          | _ :: s' => finditer_fuel n' r s'
          end
      end
  end.

Definition finditer (r : regex) (s : text) : list rmatch :=
  finditer_fuel (S (length s)) r s.

Fixpoint group_names (r : regex) : list text :=
  match r with
  | Seq a b | Alt a b => group_names a ++ group_names b
  | Group (Some n) a => n :: group_names a
  | Group None a => group_names a
  | _ => []
  end.

(** ** Python values and dictionaries *)

Inductive pyval : Type :=
| PNone
| PStr (s : text)
| PList (l : list pyval)
| PDict (d : list (text * pyval)).

Definition truthy (v : pyval) : bool :=
  match v with
  | PNone | PStr [] | PList [] | PDict [] => false
  | _ => true
  end.

(** A [dict] keeps its keys in the order of first insertion; storing under
    a key already present replaces the value where the key stands. *)
Definition dict := list (text * pyval).

Fixpoint dict_set (k : text) (v : pyval) (d : dict) : dict :=
  match d with
  | [] => [(k, v)]
  | (k', v') :: d' =>
      if text_eqb k k' then (k', v) :: d' else (k', v') :: dict_set k v d'
  end.

Fixpoint dict_get (k : text) (d : dict) : option pyval :=
  match d with
  | [] => None
  | (k', v) :: d' => if text_eqb k k' then Some v else dict_get k d'
  end.

Definition dict_update (d : dict) (items : list (text * pyval)) : dict :=
  fold_left (fun acc kv => dict_set (fst kv) (snd kv) acc) items d.

(** [m.groupdict()]: every named group of the pattern, [None] for those
    that took no part in the match. *)
Definition groupdict (r : regex) (m : rmatch) : list (text * pyval) :=
  map (fun n => (n, match cap_get n (m_caps m) with
                    | Some v => PStr v
                    | None => PNone
                    end))
      (group_names r).

(** ** [json.dumps]

    The defaults: [ensure_ascii], a comma and a blank between items, a
    colon and a blank after a key. *)

Definition bs : ascii := "092"%char.   (* the backslash *)

Definition hex_digit (n : nat) : ascii :=
  ascii_of_nat (if n <? 10 then 48 + n else 87 + n).

Definition json_escape (c : ascii) : text :=
  let n := nat_of_ascii c in
  if Ascii.eqb c dq then [bs; dq]
  else if Ascii.eqb c bs then [bs; bs]
  else if n =? 10 then str "\n"
  else if n =? 13 then str "\r"
  else if n =? 9 then str "\t"
  else if n =? 8 then str "\b"
  else if n =? 12 then str "\f"
  else if (32 <=? n) && (n <=? 126) then [c]
  else str "\u00" ++ [hex_digit (n / 16); hex_digit (n mod 16)].

Definition json_string (s : text) : text :=
  dq :: flat_map json_escape s ++ [dq].

Fixpoint join_with (sep : text) (l : list text) : text :=
  match l with
  | [] => []
  | [x] => x
  | x :: t => x ++ sep ++ join_with sep t
  end.

Fixpoint json_dumps (v : pyval) : text :=
  match v with
  | PNone => str "null"
  | PStr s => json_string s
  | PList l => str "[" ++ join_with (str ", ") (map json_dumps l) ++ str "]"
  | PDict d =>
      str "{"
      ++ join_with (str ", ")
           (map (fun kv => match kv with
                           | (k, x) => json_string k ++ str ": " ++ json_dumps x
                           end) d)
      ++ str "}"
  end.

(** ** The playlist parser: [m3u_to_json] *)

(** The header pattern: the literal [#EXTM3U url-tvg=], a quoted group
    [url_tvg] of any characters, the literal [x-tvg-url=] after one blank
    and a quoted group [x_tvg_url] of any characters. *)
Definition regex_info : regex :=
  (Lit (str "#EXTM3U url-tvg=" ++ [dq])
   >> Group (Some (str "url_tvg")) (Star CDot)
   >> Lit (dq :: str " x-tvg-url=" ++ [dq])
   >> Group (Some (str "x_tvg_url")) (Star CDot)
   >> Lit [dq])%re.

(** One quoted-attribute alternative of the stream pattern: [key=], a
    double quote, the named group of one or more characters other than a
    double quote, and a double quote. *)
Definition attr (key name : string) : regex :=
  (Lit (str key ++ str "=") >> One (COne dq)
   >> Group (Some (str name)) (Plus (CNot dq)) >> One (COne dq))%re.

(** The stream pattern, compiled with [re.VERBOSE]: blanks and the
    [#] comments of the source are not part of it. *)
Definition regex_stream : regex :=
  ((One (COne "#") >> Lit (str "EXTINF:")
      >> Group (Some (str "ext_inf")) (Plus CDigit))
   <|> attr "channelID" "channelID"
   <|> attr "tvg-chno" "tvg_chno"
   <|> attr "tvg-name" "tvg_name"
   <|> attr "tvg-id" "tvg_id"
   <|> attr "tvg-logo" "tvg_logo"
   <|> attr "group-title" "group_title"
   <|> (Lit (str ",") >> Group (Some (str "chan_name")) (Star CDot))
   <|> Group (Some (str "stream_url"))
         (Group None
            (Lit (str "http://")
             >> Plus CDigit >> One CDot >> Plus CDigit >> One CDot
             >> Plus CDigit >> One CDot >> Plus CDigit
             >> Lit (str ":") >> Plus CDigit
             >> Lit (str "/stream/") >> Star CDot)))%re.

(** The items [k, v] that the clauses
    [for m in ... for k, v in m.groupdict().items() if v]
    of the comprehension draw from a list of matches, in order. *)
Definition match_items (ms : list rmatch) : list (text * pyval) :=
  filter (fun kv => truthy (snd kv)) (flat_map (groupdict regex_stream) ms).

(** The items of the comprehension over [r_stream.finditer(line)]. *)
Definition stream_items (line : text) : list (text * pyval) :=
  match_items (finditer regex_stream line).

(** The dictionary the comprehension builds. *)
Definition stream_entry (line : text) : dict :=
  dict_update [] (stream_items line).

(** The lines the loop runs over: the pairs of [zip(temp[0::2], temp[1::2])],
    each joined with a line feed. *)
Definition line_pairs (temp : list text) : list text :=
  map join_nl (zip (slice_step 0 2 temp) (slice_step 1 2 temp)).

(** [temp.pop(0)]. *)
Definition pop0 (temp : list text) : result (text * list text) :=
  match temp with
  | [] => Raise IndexError
  | x :: t => Ok (x, t)
  end.

(** [re.search(...).groupdict()]: [None] has no [groupdict]. *)
Definition search_groupdict (r : regex) (s : text)
  : result (list (text * pyval)) :=
  match re_search r s with
  | Some m => Ok (groupdict r m)
  | None => Raise AttributeError
  end.

(** [data] as it stands when [json.dumps] is called. *)
Definition m3u_data (src : text) : result dict :=
  p <- pop0 (splitlines src) ;;
  let temp_info := fst p in
  let temp := snd p in
  info <- search_groupdict regex_info temp_info ;;
  let data := dict_update [] info in
  let streams := map (fun line => PDict (stream_entry line)) (line_pairs temp) in
  Ok (dict_update data [(str "streams", PList streams)]).

Definition m3u_to_json (src : text) : result text :=
  data <- m3u_data src ;;
  Ok (json_dumps (PDict data)).

(** ** The guide generator: [gen_xmltv_xml]

    A channel or a program is seen through [.values()] only: a record is
    the list of its values, in order.  [furl] is a library outside the
    repository: the [origin] it computes for a URL, or the exception it
    raises, is a parameter. *)

Definition record := list text.

Definition unpack4 (l : record) : result (text * text * text * text) :=
  match l with
  | [a; b; c; d] => Ok (a, b, c, d)
  | _ => Raise ValueError
  end.

Definition unpack5 (l : record) : result (text * text * text * text * text) :=
  match l with
  | [a; b; c; d; e] => Ok (a, b, c, d, e)
  | _ => Raise ValueError
  end.

Definition unpack6 (l : record)
  : result (text * text * text * text * text * text) :=
  match l with
  | [a; b; c; d; e; f] => Ok (a, b, c, d, e, f)
  | _ => Raise ValueError
  end.

Definition xml_header (origin : text) : text :=
  str "<?xml version=" ++ quoted (str "1.0")
    ++ str " encoding=" ++ quoted (str "utf-8") ++ str " ?>" ++ [nl]
  ++ str "<!DOCTYPE tv SYSTEM " ++ quoted (str "xmltv.dtd") ++ str ">" ++ [nl]
  ++ str "<tv generator-info-name=" ++ quoted (str "IPTV")
    ++ str " generator-info-url=" ++ quoted origin ++ str ">" ++ [nl].

Definition channel_block (tvg_id tvg_name tvg_logo : text) : text :=
  str "    <channel id=" ++ quoted tvg_id ++ str ">" ++ [nl]
  ++ str "        <display-name>" ++ tvg_name ++ str "</display-name>" ++ [nl]
  ++ str "        <icon src=" ++ quoted tvg_logo ++ str "/>" ++ [nl]
  ++ str "    </channel>" ++ [nl].

(** Each line of the programme template ends with an apostrophe. *)
Definition programme_block (tvg_id epg_title epg_start epg_stop epg_desc : text)
  : text :=
  str "    <programme channel=" ++ quoted tvg_id
    ++ str " start=" ++ quoted epg_start
    ++ str " stop=" ++ quoted epg_stop ++ str ">'" ++ [nl]
  ++ str "        <title lang=" ++ quoted (str "en") ++ str ">"
    ++ epg_title ++ str "</title>'" ++ [nl]
  ++ str "        <desc lang=" ++ quoted (str "en") ++ str ">"
    ++ epg_desc ++ str "</desc>'" ++ [nl]
  ++ str "    </programme>'" ++ [nl].

Definition xml_footer : text := str "</tv>" ++ [nl].

Fixpoint channels_loop (xml_channels : text) (channels : list record)
  : result text :=
  match channels with
  | [] => Ok xml_channels
  | channel :: rest =>
      v <- unpack4 channel ;;
      let '(tvg_id, tvg_name, tvg_logo, epg_desc) := v in
      channels_loop (xml_channels ++ channel_block tvg_id tvg_name tvg_logo) rest
  end.

Definition program_fields (program : record)
  : result (text * text * text * text * text) :=
  if length program =? 5 then unpack5 program
  else
    v <- unpack6 program ;;
    let '(tvg_id, epg_title, epg_start, epg_stop, epg_desc, epg_icon) := v in
    Ok (tvg_id, epg_title, epg_start, epg_stop, epg_desc).

Fixpoint programs_loop (xml_programs : text) (programs : list record)
  : result text :=
  match programs with
  | [] => Ok xml_programs
  | program :: rest =>
      v <- program_fields program ;;
      let '(tvg_id, epg_title, epg_start, epg_stop, epg_desc) := v in
      programs_loop
        (xml_programs
           ++ programme_block tvg_id epg_title epg_start epg_stop epg_desc)
        rest
  end.

Section Generator.
Variable furl_origin : text -> result text.

Definition gen_xmltv_xml (channels programs : list record) (url : text)
  : result text :=
  origin <- furl_origin url ;;
  xml_channels <- channels_loop [] channels ;;
  xml_programs <- programs_loop [] programs ;;
  Ok (xml_header origin ++ xml_channels ++ xml_programs ++ xml_footer).
End Generator.

(** ** [camel_case]

    The word pattern uses constructs the matcher above has not: ranges, an
    optional class and a look-ahead.  It has no group, so [findall] gives
    the matched texts.  [\d] stands for the decimal digits; those of the
    characters of this file are 0 to 9. *)

Inductive wclass : Set :=
| WUpper     (* [A-Z] *)
| WLower     (* [a-z] *)
| WDigit.    (* \d *)

Definition is_upper (c : ascii) : bool :=
  (65 <=? nat_of_ascii c) && (nat_of_ascii c <=? 90).

Definition is_lower (c : ascii) : bool :=
  (97 <=? nat_of_ascii c) && (nat_of_ascii c <=? 122).

Definition wmem (cl : wclass) (c : ascii) : bool :=
  match cl with
  | WUpper => is_upper c
  | WLower => is_lower c
  | WDigit => is_digit c
  end.

Inductive wregex : Type :=
| WOne (cl : wclass)
| WPlus (cl : wclass)       (* cl+, greedy *)
| WOpt (cl : wclass)        (* cl?, greedy *)
| WSeq (a b : wregex)
| WAlt (a b : wregex)
| WAhead (a : wregex).      (* (?=a) *)

Fixpoint wstar (R : Type) (cl : wclass) (s : text) (k : text -> option R)
  : option R :=
  match s with
  | c :: s' =>
      if wmem cl c then
        match wstar R cl s' k with
        | Some r => Some r
        | None => k s
        end
      else k s
  | [] => k []
  end.

(** The backtracking matcher; a look-ahead runs its pattern on the text
    ahead and takes nothing. *)
Fixpoint wexec (R : Type) (r : wregex) (s : text) (k : text -> option R)
  : option R :=
  match r with
  | WOne cl =>
      match s with
      | c :: s' => if wmem cl c then k s' else None
      | [] => None
      end
  | WPlus cl =>
      match s with
      | c :: s' => if wmem cl c then wstar R cl s' k else None
      | [] => None
      end
  | WOpt cl =>
      match s with
      | c :: s' =>
          if wmem cl c then
            match k s' with
            | Some x => Some x
            | None => k s
            end
          else k s
      | [] => k []
      end
  | WSeq a b => wexec R a s (fun s' => wexec R b s' k)
  | WAlt a b =>
      match wexec R a s k with
      | Some x => Some x
      | None => wexec R b s k
      end
  | WAhead a =>
      match wexec unit a s (fun _ => Some tt) with
      | Some _ => k s
      | None => None
      end
  end.

(** A match at the first character of [s]: the text left after it. *)
Definition wmatch_here (r : wregex) (s : text) : option text :=
  wexec text r s (fun s' => Some s').

(** [findall] for a pattern without groups: the matched texts from left
    to right, each search resuming where the previous match ended, one
    character on after an empty match. *)
Fixpoint findall_fuel (n : nat) (r : wregex) (s : text) : list text :=
  match n with
  | 0 => []
  | S n' =>
      match wmatch_here r s with
      | Some s' =>
          firstn (length s - length s') s
            :: (if length s' <? length s
                then findall_fuel n' r s'
                else match s with
                     | [] => []
                     | _ :: t => findall_fuel n' r t
                     end)
      | None =>
          match s with
          | [] => []
          | _ :: t => findall_fuel n' r t
          end
      end
  end.

Definition findall (r : wregex) (s : text) : list text :=
  findall_fuel (S (length s)) r s.

(** The word pattern, compiled with [re.VERBOSE]: upper case before a
    capitalized word, a capitalized or lower-case word, upper case,
    digits. *)
Definition RE_WORDS : wregex :=
  WAlt (WSeq (WPlus WUpper) (WAhead (WSeq (WOne WUpper) (WOne WLower))))
    (WAlt (WSeq (WOpt WUpper) (WPlus WLower))
       (WAlt (WPlus WUpper) (WPlus WDigit))).

Definition upper_char (c : ascii) : ascii :=
  if is_lower c then ascii_of_nat (nat_of_ascii c - 32) else c.

Definition lower_char (c : ascii) : ascii :=
  if is_upper c then ascii_of_nat (nat_of_ascii c + 32) else c.

(** [str.capitalize] on a text of ASCII characters, which the words of
    the pattern are ([findall_words_alnum]): the first character in upper
    case, the others in lower case.  (Outside ASCII the letters of Latin-1
    change case too, two of them to characters beyond Latin-1.) *)
Definition capitalize (w : text) : text :=
  match w with
  | [] => []
  | c :: t => upper_char c :: map lower_char t
  end.

Definition camel_case (s : text) : text :=
  match findall RE_WORDS s with
  | [] => []
  | w :: words => w ++ concat (map capitalize words)
  end.

(** ** Notions the statements use *)

(** What a pattern matches, without the search order: [derives r s g s' g']
    when [r] matches the beginning of [s], leaves [s'] and turns the groups
    [g] into [g']. *)
Fixpoint derives (r : regex) (s : text) (g : caps) (s' : text) (g' : caps)
  : Prop :=
  match r with
  | Lit l => s = l ++ s' /\ g' = g
  | One cl => exists c, s = c :: s' /\ cmem cl c = true /\ g' = g
  | Star cl => exists w, s = w ++ s' /\ forallb (cmem cl) w = true /\ g' = g
  | Plus cl =>
      exists c w, s = c :: w ++ s' /\ cmem cl c = true
                  /\ forallb (cmem cl) w = true /\ g' = g
  | Seq a b => exists s1 g1, derives a s g s1 g1 /\ derives b s1 g1 s' g'
  | Alt a b => derives a s g s' g' \/ derives b s g s' g'
  | Group (Some n) a =>
      exists g1, derives a s g s' g1
                 /\ g' = (n, firstn (length s - length s') s) :: g1
  | Group None a => derives a s g s' g'
  end.

(** A line holds the header: somewhere in it stand [#EXTM3U url-tvg=], a
    quoted text, [x-tvg-url=] after one blank, and a second quoted text. *)
Definition header_line (l : text) : Prop :=
  exists pre a b post,
    l = pre ++ (str "#EXTM3U url-tvg=" ++ quoted a
                ++ str " x-tvg-url=" ++ quoted b) ++ post
    /\ ~ In nl a /\ ~ In nl b.

Definition first_line_matches (src : text) : Prop :=
  exists l rest, splitlines src = l :: rest /\ header_line l.

(** The positions, as the text from there on, at which [finditer] looks
    for a match. *)
Fixpoint scan_fuel (n : nat) (r : regex) (s : text) : list text :=
  match n with
  | 0 => []
  | S n' =>
      s :: match match_here r s with
           | Some m =>
               if length (m_rest m) <? length s
               then scan_fuel n' r (m_rest m)
               else match s with
                    | [] => []
                    | _ :: s' => scan_fuel n' r s'
                    end
           | None =>
               match s with
               | [] => []
               | _ :: s' => scan_fuel n' r s'
               end
           end
  end.

Definition scan_positions (r : regex) (s : text) : list text :=
  scan_fuel (S (length s)) r s.

Definition scan_reaches (r : regex) (s t : text) : bool :=
  existsb (text_eqb t) (scan_positions r s).

(** The values stored under [k], in the order the items come. *)
Definition values_of (k : text) (items : list (text * pyval)) : list pyval :=
  map snd (filter (fun kv => text_eqb k (fst kv)) items).

(** The entries of the [streams] list of a parsed document. *)
Definition streams_of (d : dict) : list pyval :=
  match dict_get (str "streams") d with
  | Some (PList l) => l
  | _ => []
  end.

(** Where the scan goes on after looking at [s]. *)
Definition scan_next (r : regex) (s : text) : option text :=
  match match_here r s with
  | Some m =>
      if length (m_rest m) <? length s then Some (m_rest m)
      else match s with [] => None | _ :: s' => Some s' end
  | None => match s with [] => None | _ :: s' => Some s' end
  end.

(** The first character of each alternative of the stream pattern, with
    the group the alternative sets. *)
Definition stream_heads : list (ascii * text) :=
  [("#"%char, str "ext_inf"); ("c"%char, str "channelID");
   ("t"%char, str "tvg_chno"); ("t"%char, str "tvg_name");
   ("t"%char, str "tvg_id"); ("t"%char, str "tvg_logo");
   ("g"%char, str "group_title"); (","%char, str "chan_name");
   ("h"%char, str "stream_url")].

(** ** The words of the specification *)

(** The text after the last [c] of [s], following the words of the
    specification; all of [s] when [c] does not occur. *)
Fixpoint text_after_last (c : ascii) (s : text) : text :=
  match s with
  | [] => []
  | x :: s' =>
      if existsb (Ascii.eqb c) s' then text_after_last c s'
      else if Ascii.eqb c x then s' else s
  end.

(** The arities the docstring of [gen_xmltv_xml] and its unpacking ask for. *)
Definition arity4 (r : record) : Prop := length r = 4.
Definition arity5or6 (r : record) : Prop := length r = 5 \/ length r = 6.

(** ** Sample inputs *)

Definition sample_url : text := str "http://1.2.3.4:80/stream/1".

Definition sample_header : text :=
  str "#EXTM3U url-tvg=" ++ quoted (str "http://a/tvg.xml")
  ++ str " x-tvg-url=" ++ quoted (str "http://a/x").

Definition sample_meta : text :=
  str "#EXTINF:0 tvg-name=" ++ quoted (str "Sports, One")
  ++ str " group-title=" ++ quoted (str "Sports") ++ str ",Sports One, HD".

Definition sample_repeated : text :=
  str "#EXTINF:0 tvg-id=" ++ quoted (str "a")
  ++ str " tvg-id=" ++ quoted (str "b") ++ str ",News".

Definition sample_playlist : text :=
  sample_header ++ nl :: sample_meta ++ nl :: sample_url.

Definition sample_three_lines : text :=
  sample_playlist ++ nl :: str "#EXTINF:0,Left over".

Definition sample_origin (url : text) : result text :=
  Ok (str "http://host:8080").

Definition sample_base_url : text := str "http://host:8080/".

Definition sample_channel : record :=
  [str "1"; str "BBC"; str "http://x/logo.png"; str "d"].

Definition sample_program : record :=
  [str "1"; str "News"; str "20240101000000"; str "20240101010000";
   str "Daily"].

(** ** Notions the further statements use *)

(** What a word pattern matches: [wderives r s s'] when [r] matches the
    beginning of [s] and leaves [s']. *)
Fixpoint wderives (r : wregex) (s s' : text) : Prop :=
  match r with
  | WOne cl => exists c, s = c :: s' /\ wmem cl c = true
  | WPlus cl =>
      exists c w, s = c :: w ++ s' /\ wmem cl c = true
                  /\ forallb (wmem cl) w = true
  | WOpt cl => s' = s \/ exists c, s = c :: s' /\ wmem cl c = true
  | WSeq a b => exists s1, wderives a s s1 /\ wderives b s1 s'
  | WAlt a b => wderives a s s' \/ wderives b s s'
  | WAhead a => s' = s /\ exists t, wderives a s t
  end.

(** Where the scan of [findall] goes on after looking at [s]. *)
Definition wscan_next (r : wregex) (s : text) : option text :=
  match wmatch_here r s with
  | Some s' =>
      if length s' <? length s then Some s'
      else match s with [] => None | _ :: t => Some t end
  | None => match s with [] => None | _ :: t => Some t end
  end.

(** An ASCII letter or a digit. *)
Definition is_alnum (c : ascii) : bool :=
  is_upper c || is_lower c || is_digit c.

(** A character of one of the three classes of the word pattern: [A-Z],
    [a-z] or [\d], a decimal digit. *)
Definition is_word_char (c : ascii) : bool :=
  wmem WUpper c || wmem WLower c || wmem WDigit c.

(** A word of lower-case ASCII letters. *)
Definition lower_word (w : text) : Prop :=
  w <> [] /\ forallb is_lower w = true.

(** The text with its first character in upper case. *)
Definition upper_first (x : text) : text :=
  match x with
  | [] => []
  | c :: t => upper_char c :: t
  end.

(** The keys of the quoted attributes with the groups they set. *)
Definition attr_table : list (text * text) :=
  [(str "channelID", str "channelID"); (str "tvg-chno", str "tvg_chno");
   (str "tvg-name", str "tvg_name"); (str "tvg-id", str "tvg_id");
   (str "tvg-logo", str "tvg_logo"); (str "group-title", str "group_title")].

(** A run of one or more decimal digits. *)
Definition digit_run (n : text) : Prop :=
  n <> [] /\ forallb is_digit n = true.

(** The texts the last alternative of the stream pattern matches. *)
Definition stream_url_shape (v : text) : Prop :=
  exists n1 c1 n2 c2 n3 c3 n4 n5 tail,
    v = str "http://" ++ n1 ++ c1 :: n2 ++ c2 :: n3 ++ c3 :: n4
        ++ ":"%char :: n5 ++ str "/stream/" ++ tail
    /\ digit_run n1 /\ digit_run n2 /\ digit_run n3 /\ digit_run n4
    /\ digit_run n5
    /\ c1 <> nl /\ c2 <> nl /\ c3 <> nl /\ ~ In nl tail.

(** The characters an alternative of the stream pattern can start with. *)
Definition stream_head_chars : text :=
  ["#"; "c"; "t"; "g"; ","; "h"]%char.

(** A text without a line boundary. *)
Definition no_break (l : text) : Prop :=
  forallb (fun c => negb (is_linebreak c)) l = true.

(** Lines, each followed by the line end [sep]. *)
Definition unlines (sep : text) (lines : list text) : text :=
  concat (map (fun l => l ++ sep) lines).

(** A line end: [\r\n], or one line boundary character. *)
Definition line_end (sep : text) : Prop :=
  sep = [cr; nl] \/ exists c, sep = [c] /\ is_linebreak c = true.

(** A printable ASCII character: from the blank to the tilde. *)
Definition printable (c : ascii) : bool :=
  (32 <=? nat_of_ascii c) && (nat_of_ascii c <=? 126).

(** The element a channel record gives: its first three values. *)
Definition channel_text (c : record) : text :=
  channel_block (nth 0 c []) (nth 1 c []) (nth 2 c []).

(** The element a program record gives: its first five values. *)
Definition program_text (p : record) : text :=
  programme_block (nth 0 p []) (nth 1 p []) (nth 2 p []) (nth 3 p [])
    (nth 4 p []).

(** * Properties *)

(** ** Text and dictionaries *)

Lemma text_eqb_eq (a b : text) : text_eqb a b = true <-> a = b.
Proof.
  revert b; induction a as [|x a IH]; intros [|y b]; simpl;
    try (split; [discriminate | discriminate]); try tauto.
  rewrite andb_true_iff, Ascii.eqb_eq, IH.
  split; [intros [-> ->]; reflexivity | intros E; injection E; auto].
Qed.

Lemma text_eqb_refl (a : text) : text_eqb a a = true.
Proof. apply text_eqb_eq; reflexivity. Qed.

Lemma text_eqb_neq (a b : text) : text_eqb a b = false <-> a <> b.
Proof.
  rewrite <- text_eqb_eq. destruct (text_eqb a b); split; congruence.
Qed.

Lemma strip_prefix_app (p s : text) : strip_prefix p (p ++ s) = Some s.
Proof.
  induction p as [|x p IH]; simpl; [reflexivity|].
  rewrite Ascii.eqb_refl; exact IH.
Qed.

Lemma strip_prefix_some (p s s' : text) :
  strip_prefix p s = Some s' -> s = p ++ s'.
Proof.
  revert s; induction p as [|x p IH]; simpl; intros s H.
  - congruence.
  - destruct s as [|y s]; [discriminate|].
    destruct (Ascii.eqb x y) eqn:E; [|discriminate].
    apply Ascii.eqb_eq in E; subst y. f_equal; auto.
Qed.

Lemma dict_get_set_same (k : text) (v : pyval) (d : dict) :
  dict_get k (dict_set k v d) = Some v.
Proof.
  induction d as [|[k' v'] d IH]; simpl.
  - rewrite text_eqb_refl; reflexivity.
  - destruct (text_eqb k k') eqn:E; simpl; rewrite E; auto.
Qed.

Lemma dict_get_set_other (k k0 : text) (v : pyval) (d : dict) :
  k <> k0 -> dict_get k (dict_set k0 v d) = dict_get k d.
Proof.
  intros N. induction d as [|[k' v'] d IH]; simpl.
  - apply text_eqb_neq in N; rewrite N; reflexivity.
  - destruct (text_eqb k0 k') eqn:E; simpl.
    + apply text_eqb_eq in E; subst k'.
      apply text_eqb_neq in N; rewrite N; reflexivity.
    + rewrite IH; reflexivity.
Qed.

Lemma dict_set_in (k0 : text) (v0 : pyval) (d : dict) (k : text) (v : pyval) :
  In (k, v) (dict_set k0 v0 d) -> In (k, v) d \/ (k, v) = (k0, v0).
Proof.
  induction d as [|[k' v'] d IH]; simpl.
  - intros [E|[]]; right; congruence.
  - destruct (text_eqb k0 k') eqn:E; simpl.
    + apply text_eqb_eq in E; subst k'.
      intros [H|H]; [right; congruence | left; right; exact H].
    + intros [H|H]; [left; left; exact H|].
      destruct (IH H) as [H'|H']; [left; right; exact H' | right; exact H'].
Qed.

Lemma dict_update_in (items : list (text * pyval)) (d : dict)
      (k : text) (v : pyval) :
  In (k, v) (dict_update d items) -> In (k, v) d \/ In (k, v) items.
Proof.
  revert d; induction items as [|[k0 v0] items IH]; simpl; intros d H.
  - left; exact H.
  - destruct (IH _ H) as [H'|H']; [|right; right; exact H'].
    destruct (dict_set_in _ _ _ _ _ H') as [H''|H'']; [left; exact H''|].
    right; left; congruence.
Qed.

Lemma dict_update_app (d : dict) (a b : list (text * pyval)) :
  dict_update d (a ++ b) = dict_update (dict_update d a) b.
Proof. unfold dict_update; apply fold_left_app. Qed.

(** The value under [k] after an update is the last one the items give
    for [k], and the former value when they give none. *)
Lemma dict_get_update (k : text) (items : list (text * pyval)) (d : dict) :
  dict_get k (dict_update d items)
  = match rev (values_of k items) with
    | v :: _ => Some v
    | [] => dict_get k d
    end.
Proof.
  revert d; induction items as [|[k0 v0] items IH] using rev_ind; intros d.
  - reflexivity.
  - rewrite dict_update_app. unfold values_of.
    rewrite filter_app, map_app, rev_app_distr. simpl.
    destruct (text_eqb k k0) eqn:E; simpl.
    + apply text_eqb_eq in E; subst k0. apply dict_get_set_same.
    + apply text_eqb_neq in E. rewrite dict_get_set_other by exact E.
      apply IH.
Qed.

(** ** The matcher against what a pattern matches *)

Section MatcherFacts.
Variable R : Type.
Implicit Types (k : text -> caps -> option R) (x : R).

Lemma star_sound cl s (k : text -> option R) x :
  star cl s k = Some x ->
  exists w s', s = w ++ s' /\ forallb (cmem cl) w = true /\ k s' = Some x.
Proof.
  induction s as [|c s IH]; simpl; intros H.
  - exists [], []; auto.
  - destruct (cmem cl c) eqn:C.
    + destruct (star cl s k) as [y|] eqn:S.
      * injection H as ->.
        destruct (IH eq_refl) as (w & s' & -> & F & K).
        exists (c :: w), s'; simpl; rewrite C, F; auto.
      * exists [], (c :: s); auto.
    + exists [], (c :: s); auto.
Qed.

Lemma star_complete cl s (k : text -> option R) :
  star cl s k = None ->
  forall w s', s = w ++ s' -> forallb (cmem cl) w = true -> k s' = None.
Proof.
  induction s as [|c s IH]; simpl; intros H w s' E F.
  - destruct w; [|discriminate]. simpl in E; subst s'; exact H.
  - destruct w as [|c' w]; simpl in E.
    + subst s'. destruct (cmem cl c); [|exact H].
      destruct (star cl s k); [discriminate | exact H].
    + injection E as <- ->. simpl in F. apply andb_true_iff in F as [C F].
      rewrite C in H. destruct (star cl (w ++ s') k) eqn:S; [discriminate|].
      eapply IH; eauto.
Qed.

(** The longest run is tried first: when the rest of the pattern accepts
    what follows it, that is the match. *)
Lemma star_longest cl w s' (k : text -> option R) x :
  forallb (cmem cl) w = true -> k s' = Some x ->
  match s' with c :: _ => cmem cl c = false | [] => True end ->
  star cl (w ++ s') k = Some x.
Proof.
  intros F K E. induction w as [|c w IH]; simpl.
  - destruct s' as [|c s']; [exact K|]. simpl. rewrite E. exact K.
  - simpl in F. apply andb_true_iff in F as [C F].
    rewrite C, (IH F). reflexivity.
Qed.

Lemma exec_sound r : forall s g k x,
  exec r s g k = Some x ->
  exists s' g', derives r s g s' g' /\ k s' g' = Some x.
Proof.
  induction r as [l|cl|cl|cl|a IHa b IHb|a IHa b IHb|[n|] a IHa];
    simpl; intros s g k x H.
  - destruct (strip_prefix l s) as [s'|] eqn:P; [|discriminate].
    apply strip_prefix_some in P. exists s', g; auto.
  - destruct s as [|c s]; [discriminate|].
    destruct (cmem cl c) eqn:C; [|discriminate].
    exists s, g; split; [exists c|]; auto.
  - apply star_sound in H as (w & s' & E & F & K).
    exists s', g; split; [exists w|]; auto.
  - destruct s as [|c s]; [discriminate|].
    destruct (cmem cl c) eqn:C; [|discriminate].
    apply star_sound in H as (w & s' & E & F & K). subst s.
    exists s', g; split; [exists c, w|]; auto.
  - apply IHa in H as (s1 & g1 & Da & H).
    apply IHb in H as (s' & g' & Db & H).
    exists s', g'; split; [exists s1, g1|]; auto.
  - destruct (exec a s g k) as [y|] eqn:A.
    + injection H as ->. apply IHa in A as (s' & g' & D & K).
      exists s', g'; auto.
    + apply IHb in H as (s' & g' & D & K). exists s', g'; auto.
  - apply IHa in H as (s' & g1 & D & K).
    eexists s', _; split; [exists g1; split; [exact D | reflexivity]|exact K].
  - apply IHa in H as (s' & g' & D & K). exists s', g'; auto.
Qed.

Lemma exec_complete r : forall s g k,
  exec r s g k = None ->
  forall s' g', derives r s g s' g' -> k s' g' = None.
Proof.
  induction r as [l|cl|cl|cl|a IHa b IHb|a IHa b IHb|[n|] a IHa];
    simpl; intros s g k H s' g' D.
  - destruct D as [-> ->]. rewrite strip_prefix_app in H. exact H.
  - destruct D as (c & -> & C & ->). rewrite C in H. exact H.
  - destruct D as (w & E & F & ->).
    exact (star_complete cl s (fun t => k t g) H w s' E F).
  - destruct D as (c & w & -> & C & F & ->). rewrite C in H.
    exact (star_complete cl (w ++ s') (fun t => k t g) H w s' eq_refl F).
  - destruct D as (s1 & g1 & Da & Db).
    pose proof (IHa _ _ _ H _ _ Da) as Ha. simpl in Ha.
    exact (IHb _ _ _ Ha _ _ Db).
  - destruct (exec a s g k) eqn:A; [discriminate|].
    destruct D as [D|D]; eauto.
  - destruct D as (g1 & D & ->).
    exact (IHa _ _ _ H _ _ D).
  - eauto.
Qed.
End MatcherFacts.

(** A match leaves an end of the text it started on. *)
Lemma derives_suffix r : forall s g s' g',
  derives r s g s' g' -> exists w, s = w ++ s'.
Proof.
  induction r as [l|cl|cl|cl|a IHa b IHb|a IHa b IHb|[n|] a IHa];
    simpl; intros s g s' g' D.
  - destruct D as [-> _]; eauto.
  - destruct D as (c & -> & _); exists [c]; reflexivity.
  - destruct D as (w & -> & _); eauto.
  - destruct D as (c & w & -> & _); exists (c :: w); reflexivity.
  - destruct D as (s1 & g1 & Da & Db).
    apply IHa in Da as [w1 ->]. apply IHb in Db as [w2 ->].
    exists (w1 ++ w2); rewrite app_assoc; reflexivity.
  - destruct D as [D|D]; eauto.
  - destruct D as (g1 & D & _); eauto.
  - eauto.
Qed.

Lemma match_here_sound r s m :
  match_here r s = Some m -> derives r s [] (m_rest m) (m_caps m).
Proof.
  unfold match_here; intros H.
  apply exec_sound in H as (s' & g' & D & K). injection K as <-. exact D.
Qed.

Lemma match_here_none r s :
  match_here r s = None -> forall s' g', ~ derives r s [] s' g'.
Proof.
  unfold match_here; intros H s' g' D.
  pose proof (exec_complete _ _ _ _ _ H _ _ D) as K. discriminate.
Qed.

(** ** The scan of [finditer] *)

Lemma scan_next_shorter r s t : scan_next r s = Some t -> length t < length s.
Proof.
  unfold scan_next. destruct (match_here r s) as [m|].
  - destruct (length (m_rest m) <? length s) eqn:L.
    + intros E; injection E as <-. apply Nat.ltb_lt; exact L.
    + destruct s; [discriminate|]. intros E; injection E as <-. simpl; lia.
  - destruct s; [discriminate|]. intros E; injection E as <-. simpl; lia.
Qed.

Lemma finditer_fuel_step n r s :
  finditer_fuel (S n) r s
  = match match_here r s with Some m => [m] | None => [] end
    ++ match scan_next r s with
       | Some t => finditer_fuel n r t
       | None => []
       end.
Proof.
  unfold scan_next. simpl.
  destruct (match_here r s) as [m|]; simpl.
  - destruct (length (m_rest m) <? length s); [reflexivity|].
    destruct s; reflexivity.
  - destruct s; reflexivity.
Qed.

Lemma scan_fuel_step n r s :
  scan_fuel (S n) r s
  = s :: match scan_next r s with
         | Some t => scan_fuel n r t
         | None => []
         end.
Proof.
  unfold scan_next. simpl.
  destruct (match_here r s) as [m|]; simpl.
  - destruct (length (m_rest m) <? length s); [reflexivity|].
    destruct s; reflexivity.
  - destruct s; reflexivity.
Qed.

(** More fuel than the length of the text changes nothing. *)
Lemma finditer_fuel_enough r : forall n m s,
  length s < n -> length s < m -> finditer_fuel n r s = finditer_fuel m r s.
Proof.
  induction n as [|n IH]; intros [|m] s Hn Hm; try lia.
  rewrite !finditer_fuel_step. f_equal.
  destruct (scan_next r s) as [t|] eqn:E; [|reflexivity].
  apply scan_next_shorter in E. apply IH; lia.
Qed.

Lemma scan_fuel_enough r : forall n m s,
  length s < n -> length s < m -> scan_fuel n r s = scan_fuel m r s.
Proof.
  induction n as [|n IH]; intros [|m] s Hn Hm; try lia.
  rewrite !scan_fuel_step. f_equal.
  destruct (scan_next r s) as [t|] eqn:E; [|reflexivity].
  apply scan_next_shorter in E. apply IH; lia.
Qed.

Lemma finditer_step r s :
  finditer r s
  = match match_here r s with Some m => [m] | None => [] end
    ++ match scan_next r s with
       | Some t => finditer r t
       | None => []
       end.
Proof.
  unfold finditer. rewrite finditer_fuel_step. f_equal.
  destruct (scan_next r s) as [t|] eqn:E; [|reflexivity].
  apply scan_next_shorter in E. apply finditer_fuel_enough; lia.
Qed.

Lemma scan_positions_step r s :
  scan_positions r s
  = s :: match scan_next r s with
         | Some t => scan_positions r t
         | None => []
         end.
Proof.
  unfold scan_positions. rewrite scan_fuel_step. f_equal.
  destruct (scan_next r s) as [t|] eqn:E; [|reflexivity].
  apply scan_next_shorter in E. apply scan_fuel_enough; lia.
Qed.

(** Induction along the scan. *)
Lemma scan_ind (r : regex) (P : text -> Prop) :
  (forall s, (forall t, scan_next r s = Some t -> P t) -> P s) ->
  forall s, P s.
Proof.
  intros step s.
  assert (H : forall n s, length s < n -> P s).
  { induction n as [|n IH]; intros s0 L; [lia|].
    apply step. intros t E. apply scan_next_shorter in E. apply IH; lia. }
  apply (H (S (length s))); lia.
Qed.

(** From a position the scan reaches, [finditer] yields what it would
    yield if it started there. *)
Lemma finditer_from_position r t : forall s,
  In t (scan_positions r s) -> exists ms, finditer r s = ms ++ finditer r t.
Proof.
  intros s; pattern s; apply (scan_ind r); clear s; intros s IH H.
  rewrite scan_positions_step in H. destruct H as [<-|H].
  - exists []; reflexivity.
  - rewrite (finditer_step r s).
    destruct (scan_next r s) as [u|]; [|destruct H].
    destruct (IH u eq_refl H) as [ms ->].
    eexists; rewrite app_assoc; reflexivity.
Qed.

(** Every position of the scan is an end of the text. *)
Lemma scan_position_suffix r t : forall s,
  In t (scan_positions r s) -> exists w, s = w ++ t.
Proof.
  intros s; pattern s; apply (scan_ind r); clear s; intros s IH H.
  rewrite scan_positions_step in H. destruct H as [<-|H].
  - exists []; reflexivity.
  - destruct (scan_next r s) as [u|] eqn:E; [|destruct H].
    destruct (IH u eq_refl H) as [w ->].
    assert (exists w0, s = w0 ++ w ++ t) as [w0 ->].
    { unfold scan_next in E. destruct (match_here r s) as [m|] eqn:M.
      - destruct (length (m_rest m) <? length s).
        + injection E as E. apply match_here_sound, derives_suffix in M.
          rewrite E in M. exact M.
        + destruct s; [discriminate|]. injection E as ->.
          eexists [_]; reflexivity.
      - destruct s; [discriminate|]. injection E as ->.
        eexists [_]; reflexivity. }
    exists (w0 ++ w); rewrite app_assoc; reflexivity.
Qed.

(** Every match [finditer] yields is a match at a position of the scan. *)
Lemma finditer_in r m : forall s,
  In m (finditer r s) ->
  exists t, In t (scan_positions r s) /\ match_here r t = Some m.
Proof.
  intros s; pattern s; apply (scan_ind r); clear s; intros s IH H.
  rewrite finditer_step in H. rewrite scan_positions_step.
  apply in_app_or in H as [H|H].
  - destruct (match_here r s) as [m'|] eqn:M; [|destruct H].
    destruct H as [->|[]]. exists s; split; [left; reflexivity | exact M].
  - destruct (scan_next r s) as [u|]; [|destruct H].
    destruct (IH u eq_refl H) as (t & Ht & M).
    exists t; split; [right; exact Ht | exact M].
Qed.

(** ** The stream pattern *)

Lemma firstn_app_minus (w s' : text) :
  firstn (length (w ++ s') - length s') (w ++ s') = w.
Proof.
  rewrite length_app.
  replace (length w + length s' - length s') with (length w) by lia.
  rewrite firstn_app, Nat.sub_diag, firstn_all. simpl. apply app_nil_r.
Qed.

Ltac break_derivation :=
  repeat match goal with
         | H : exists _, _ |- _ => destruct H
         | H : _ /\ _ |- _ => destruct H
         | H : _ \/ _ |- _ => destruct H
         end.

(** A match of the stream pattern starts with the first character of one
    alternative, sets the group of that alternative and no other, and is
    not empty. *)
Lemma stream_match_cases u s' g' :
  derives regex_stream u [] s' g' ->
  exists c t n v,
    u = c :: t /\ g' = [(n, v)] /\ In (c, n) stream_heads
    /\ length s' < length u.
Proof.
  unfold regex_stream, attr. cbn -[firstn length].
  intros D. break_derivation; subst;
    repeat match goal with
           | H : (_ =? _)%char = true |- _ => apply Ascii.eqb_eq in H; subst
           end;
    do 4 eexists;
    (split; [reflexivity|]); (split; [reflexivity|]);
    (split; [cbn; tauto|]);
    repeat (cbn [length]; rewrite ?length_app); lia.
Qed.

Lemma stream_match_nonempty s m :
  match_here regex_stream s = Some m -> length (m_rest m) < length s.
Proof.
  intros H. apply match_here_sound, stream_match_cases in H.
  destruct H as (c & t & n & v & _ & _ & _ & L). exact L.
Qed.

(** After a match of the stream pattern the scan resumes where it ended. *)
Lemma stream_scan_next s m :
  match_here regex_stream s = Some m ->
  scan_next regex_stream s = Some (m_rest m).
Proof.
  intros H. unfold scan_next. rewrite H.
  apply stream_match_nonempty, Nat.ltb_lt in H. rewrite H. reflexivity.
Qed.

(** A match that sets group [n] starts with the character [stream_heads]
    gives for [n]. *)
Lemma stream_match_head s m n v :
  match_here regex_stream s = Some m ->
  cap_get n (m_caps m) = Some v ->
  exists c t, s = c :: t /\ In (c, n) stream_heads.
Proof.
  intros H G. apply match_here_sound, stream_match_cases in H.
  destruct H as (c & t & n' & v' & -> & E & I & _).
  rewrite E in G. simpl in G.
  destruct (text_eqb n n') eqn:N; [|discriminate].
  apply text_eqb_eq in N; subst n'. eauto.
Qed.

Lemma match_ext_inf d ds rest :
  is_digit d = true -> forallb is_digit ds = true ->
  match rest with c :: _ => is_digit c = false | [] => True end ->
  match_here regex_stream (str "#EXTINF:" ++ d :: ds ++ rest)
  = Some {| m_rest := rest; m_caps := [(str "ext_inf", d :: ds)] |}.
Proof.
  intros D F E. unfold match_here, regex_stream. cbn -[firstn length star].
  rewrite D.
  erewrite star_longest; [| exact F | reflexivity | exact E].
  change (d :: ds ++ rest) with ((d :: ds) ++ rest).
  rewrite firstn_app_minus. reflexivity.
Qed.

Lemma not_in_forallb (c : ascii) (w : text) :
  ~ In c w -> forallb (fun x => negb (Ascii.eqb x c)) w = true.
Proof.
  induction w as [|x w IH]; simpl; intros N; [reflexivity|].
  destruct (Ascii.eqb x c) eqn:E.
  - apply Ascii.eqb_eq in E. destruct N; left; exact E.
  - simpl. apply IH. intros H; apply N; right; exact H.
Qed.

Lemma match_chan_name name rest :
  ~ In nl name ->
  match rest with c :: _ => c = nl | [] => True end ->
  match_here regex_stream (","%char :: name ++ rest)
  = Some {| m_rest := rest; m_caps := [(str "chan_name", name)] |}.
Proof.
  intros N E. unfold match_here, regex_stream, attr.
  cbn -[firstn length star].
  erewrite star_longest;
    [| exact (not_in_forallb nl name N) | reflexivity |].
  - rewrite firstn_app_minus. reflexivity.
  - destruct rest as [|c rest]; [exact I|]. subst c. reflexivity.
Qed.

(** ** The items of a stream entry *)

Lemma match_items_app a b : match_items (a ++ b) = match_items a ++ match_items b.
Proof. unfold match_items. rewrite flat_map_app, filter_app. reflexivity. Qed.

Lemma match_items_cons m ms :
  match_items (m :: ms)
  = filter (fun kv => truthy (snd kv)) (groupdict regex_stream m)
    ++ match_items ms.
Proof. unfold match_items. cbn [flat_map]. apply filter_app. Qed.

Lemma values_of_app k a b : values_of k (a ++ b) = values_of k a ++ values_of k b.
Proof. unfold values_of. rewrite filter_app, map_app. reflexivity. Qed.

Lemma stream_entry_get k line :
  dict_get k (stream_entry line)
  = match rev (values_of k (match_items (finditer regex_stream line))) with
    | v :: _ => Some v
    | [] => None
    end.
Proof. unfold stream_entry. rewrite dict_get_update. reflexivity. Qed.

(** A match in which group [k] took no part gives no item for [k]. *)
Lemma values_of_unset r k m :
  cap_get k (m_caps m) = None ->
  values_of k (filter (fun kv => truthy (snd kv)) (groupdict r m)) = [].
Proof.
  intros G. unfold groupdict, values_of.
  induction (group_names r) as [|n ns IH]; simpl; [reflexivity|].
  destruct (cap_get n (m_caps m)) as [v|] eqn:C; simpl; [|exact IH].
  destruct v as [|c v]; simpl; [exact IH|].
  destruct (text_eqb k n) eqn:E; [|exact IH].
  apply text_eqb_eq in E; subst n. congruence.
Qed.

Lemma match_items_unset k ms :
  (forall m, In m ms -> cap_get k (m_caps m) = None) ->
  values_of k (match_items ms) = [].
Proof.
  induction ms as [|m ms IH]; intros H; [reflexivity|].
  rewrite match_items_cons, values_of_app.
  rewrite IH by (intros m' I; apply H; right; exact I).
  rewrite app_nil_r. apply values_of_unset. apply H; left; reflexivity.
Qed.

(** Settles [forall c, In (c, k) stream_heads -> c = c0] for a given key. *)
Ltac only_head :=
  let c := fresh "c" in
  let H := fresh "H" in
  intros c H; cbn in H;
  repeat (destruct H as [H|H];
          [injection H; intros; try discriminate; congruence|]);
  destruct H.

(** In a text without the first character of the alternative of [k], no
    match sets [k]. *)
Lemma stream_key_needs_head k c0 s :
  (forall c, In (c, k) stream_heads -> c = c0) -> ~ In c0 s ->
  forall m, In m (finditer regex_stream s) -> cap_get k (m_caps m) = None.
Proof.
  intros U N m I.
  apply finditer_in in I as (t & P & M).
  apply scan_position_suffix in P as [w ->].
  destruct (cap_get k (m_caps m)) as [v|] eqn:G; [|reflexivity].
  destruct (stream_match_head _ _ _ _ M G) as (c & t' & -> & H).
  apply U in H; subst c. destruct N. apply in_or_app; right; left; reflexivity.
Qed.

(** ** Duration marker *)

(** A run of one or more digits after [#EXTINF:] is the [ext_inf] of the
    entry when no [#] stands later in the two lines. *)
Lemma ext_inf_from_digits (d : ascii) (ds rest url : text) :
  is_digit d = true -> forallb is_digit ds = true ->
  match rest with c :: _ => is_digit c = false | [] => True end ->
  ~ In "#"%char rest -> ~ In "#"%char url ->
  dict_get (str "ext_inf")
    (stream_entry (join_nl (str "#EXTINF:" ++ d :: ds ++ rest, url)))
  = Some (PStr (d :: ds)).
Proof.
  intros D F E Nr Nu.
  assert (L : join_nl (str "#EXTINF:" ++ d :: ds ++ rest, url)
              = str "#EXTINF:" ++ d :: ds ++ (rest ++ nl :: url)).
  { unfold join_nl; cbn [fst snd]. rewrite <- !app_assoc. simpl.
    rewrite <- app_assoc. reflexivity. }
  rewrite L, stream_entry_get, finditer_step.
  assert (E' : match rest ++ nl :: url with
               | c :: _ => is_digit c = false | [] => True end).
  { destruct rest; [reflexivity | exact E]. }
  pose proof (match_ext_inf d ds (rest ++ nl :: url) D F E') as M.
  rewrite (stream_scan_next _ _ M), M. cbn [m_rest].
  rewrite match_items_app, values_of_app.
  rewrite (match_items_unset (str "ext_inf") (finditer regex_stream _)).
  - reflexivity.
  - apply (stream_key_needs_head (str "ext_inf") "#"%char).
    + only_head.
    + intros H. apply in_app_or in H as [H|[H|H]]; [auto | discriminate | auto].
Qed.

(** Where no digit follows [#EXTINF:] the pattern has no match. *)
Lemma no_match_without_digit (r : text) :
  match r with c :: _ => is_digit c = false | [] => True end ->
  match_here regex_stream (str "#EXTINF:" ++ r) = None.
Proof.
  intros E. unfold match_here, regex_stream, attr.
  destruct r as [|c r]; cbn -[firstn length star].
  - reflexivity.
  - rewrite E. reflexivity.
Qed.

(** With no digit after [#EXTINF:] and no [#] later in the two lines the
    entry has no [ext_inf]. *)
Lemma ext_inf_without_digit (rest url : text) :
  match rest with c :: _ => is_digit c = false | [] => True end ->
  ~ In "#"%char rest -> ~ In "#"%char url ->
  dict_get (str "ext_inf")
    (stream_entry (join_nl (str "#EXTINF:" ++ rest, url)))
  = None.
Proof.
  intros E Nr Nu.
  assert (L : join_nl (str "#EXTINF:" ++ rest, url)
              = str "#EXTINF:" ++ (rest ++ nl :: url)).
  { unfold join_nl; cbn [fst snd]. rewrite <- app_assoc. reflexivity. }
  rewrite L, stream_entry_get, finditer_step.
  assert (E' : match rest ++ nl :: url with
               | c :: _ => is_digit c = false | [] => True end).
  { destruct rest; [reflexivity | exact E]. }
  pose proof (no_match_without_digit (rest ++ nl :: url) E') as M.
  unfold scan_next. rewrite M. cbn [app str list_ascii_of_string].
  rewrite (match_items_unset (str "ext_inf") (finditer regex_stream _)).
  - reflexivity.
  - apply (stream_key_needs_head (str "ext_inf") "#"%char).
    + only_head.
    + cbn [In]. intros H.
      repeat (destruct H as [H|H]; [discriminate H|]).
      apply in_app_or in H as [H|[H|H]]; [auto | discriminate | auto].
Qed.

(** C5, as amended: for a metadata line that begins with [#EXTINF:]
    followed by a run of decimal digits, the run ending where the digits
    end, and with no [#] later in the two lines: when the run is not empty
    the entry's [ext_inf] is that run of digits, as text; when it is
    empty -- the marker does not start with a digit, as in -1 -- the entry
    has no [ext_inf]. *)
Theorem ext_inf_of_marker (ds rest url : text) :
  forallb is_digit ds = true ->
  match rest with c :: _ => is_digit c = false | [] => True end ->
  ~ In "#"%char rest -> ~ In "#"%char url ->
  dict_get (str "ext_inf")
    (stream_entry (join_nl (str "#EXTINF:" ++ ds ++ rest, url)))
  = match ds with
    | [] => None
    | _ :: _ => Some (PStr ds)
    end.
Proof.
  intros F E Nr Nu. destruct ds as [|d ds].
  - apply ext_inf_without_digit; assumption.
  - simpl in F. apply andb_true_iff in F as [D F].
    apply ext_inf_from_digits; assumption.
Qed.

Lemma ext_inf_of_marker_witness :
  dict_get (str "ext_inf")
    (stream_entry (join_nl (str "#EXTINF:" ++ str "0" ++ str ",News",
                            sample_url)))
  = Some (PStr (str "0")).
Proof.
  apply (ext_inf_of_marker (str "0") (str ",News") sample_url).
  - reflexivity.
  - reflexivity.
  - vm_compute. intuition discriminate.
  - vm_compute. intuition discriminate.
Defined.

(** C5, counterexample: the marker -1 is not a run of digits; the entry
    has no [ext_inf]. *)
Lemma ext_inf_minus_one_absent :
  exists data,
    m3u_data (sample_header ++ nl :: str "#EXTINF:-1,News" ++ nl :: sample_url)
    = Ok data
    /\ streams_of data
       = [PDict [(str "chan_name", PStr (str "News"));
                 (str "stream_url", PStr sample_url)]]
    /\ dict_get (str "ext_inf")
         (stream_entry (join_nl (str "#EXTINF:-1,News", sample_url)))
       = None.
Proof. eexists; split; [vm_compute; reflexivity|]. split; vm_compute; reflexivity. Qed.

(** ** Channel name *)

(** At a comma the scan reaches, the name runs to the end of the line. *)
Lemma chan_name_at_position (line name url : text) :
  In (","%char :: name ++ nl :: url) (scan_positions regex_stream line) ->
  name <> [] -> ~ In nl name -> ~ In ","%char url ->
  dict_get (str "chan_name") (stream_entry line) = Some (PStr name).
Proof.
  intros I Ne Nn Nu.
  apply finditer_from_position in I as [ms F].
  rewrite stream_entry_get, F.
  pose proof (match_chan_name name (nl :: url) Nn eq_refl) as M.
  rewrite (finditer_step regex_stream (","%char :: name ++ nl :: url)).
  rewrite (stream_scan_next _ _ M), M. cbn [m_rest].
  rewrite !match_items_app, !values_of_app.
  rewrite (match_items_unset (str "chan_name") (finditer regex_stream _)).
  - rewrite app_nil_r, rev_app_distr.
    destruct name as [|c name]; [congruence|]. reflexivity.
  - apply (stream_key_needs_head (str "chan_name") ","%char).
    + only_head.
    + intros [H|H]; [discriminate | auto].
Qed.

(** C7, as amended: when the scan of the two lines looks for a match at a
    comma of the metadata line -- a comma no earlier match has taken in --
    the entry's [chan_name] is all the text from that comma to the end of
    the metadata line, further commas included, provided that text is not
    empty and the URL line has no comma. *)
Theorem chan_name_from_scanned_comma (pre name url : text) :
  scan_reaches regex_stream (join_nl (pre ++ ","%char :: name, url))
    (","%char :: name ++ nl :: url) = true ->
  name <> [] -> ~ In nl name -> ~ In ","%char url ->
  dict_get (str "chan_name")
    (stream_entry (join_nl (pre ++ ","%char :: name, url)))
  = Some (PStr name).
Proof.
  intros S. unfold scan_reaches in S.
  apply existsb_exists in S as (t & I & E). apply text_eqb_eq in E; subst t.
  apply chan_name_at_position; exact I.
Qed.

Lemma chan_name_from_scanned_comma_witness :
  dict_get (str "chan_name") (stream_entry (join_nl (sample_meta, sample_url)))
  = Some (PStr (str "Sports One, HD")).
Proof.
  apply (chan_name_from_scanned_comma
           (str "#EXTINF:0 tvg-name=" ++ quoted (str "Sports, One")
            ++ str " group-title=" ++ quoted (str "Sports"))
           (str "Sports One, HD") sample_url).
  - vm_compute; reflexivity.
  - discriminate.
  - vm_compute; intuition discriminate.
  - vm_compute; intuition discriminate.
Defined.

(** C7, counterexample: with two commas outside the quoted attributes the
    name starts after the first, not after the last. *)
Lemma chan_name_not_after_last_comma :
  dict_get (str "chan_name")
    (stream_entry (join_nl (str "#EXTINF:0,Channel, HD", sample_url)))
  = Some (PStr (str "Channel, HD"))
  /\ text_after_last ","%char (str "#EXTINF:0,Channel, HD") = str " HD".
Proof. split; vm_compute; reflexivity. Qed.

(** ** Reaching the first comma *)

Lemma prefix_without (x : ascii) (w : text) : forall p R s',
  ~ In x w -> p ++ x :: R = w ++ s' ->
  exists p', p = w ++ p' /\ s' = p' ++ x :: R.
Proof.
  induction w as [|c w IH]; intros p R s' N E.
  - exists p; auto.
  - destruct p as [|c' p]; simpl in E; injection E as E1 E2.
    + destruct N; left; auto.
    + subst c'. destruct (IH p R s') as (p' & -> & ->); auto.
      * intros H; apply N; right; exact H.
      * exists p'; auto.
Qed.

Lemma ends_with_cons (c : ascii) (T s' : text) :
  (exists T', T = T' ++ s') -> exists T', c :: T = T' ++ s'.
Proof. intros [T' ->]. exists (c :: T'); reflexivity. Qed.

Lemma ends_with_app (a T s' : text) :
  (exists T', T = T' ++ s') -> exists T', a ++ T = T' ++ s'.
Proof. intros [T' ->]. exists (a ++ T'); apply app_assoc. Qed.

Lemma digit_run_no_comma (w : text) :
  forallb (cmem CDigit) w = true -> ~ In ","%char w.
Proof.
  induction w as [|c w IH]; simpl; [tauto|].
  rewrite andb_true_iff. intros [D F] [H|H]; [|exact (IH F H)].
  subst c. discriminate.
Qed.

(** The text a match of the stream pattern takes in: it begins with a
    comma, or has a double quote or a slash with no comma before it, or has
    no comma at all. *)
Lemma stream_match_span u s' g' :
  derives regex_stream u [] s' g' ->
  exists w,
    u = w ++ s'
    /\ ((exists t, w = ","%char :: t)
        \/ (exists w1 x w2, w = w1 ++ x :: w2 /\ ~ In ","%char w1
                           /\ (x = dq \/ x = "/"%char))
        \/ ~ In ","%char w).
Proof.
  unfold regex_stream, attr. cbn -[firstn length].
  intros D. break_derivation; subst;
    repeat match goal with
           | H : (_ =? _)%char = true |- _ => apply Ascii.eqb_eq in H; subst
           end.
  - (* ext_inf *)
    match goal with
    | H : is_digit ?c = true, F : forallb _ ?w = true |- _ =>
        exists (str "#EXTINF:" ++ c :: w); split; [reflexivity|];
        right; right; apply digit_run_no_comma in F;
        intros I; cbn in I;
        repeat (destruct I as [I|I]; [try discriminate|]); auto;
        subst c; discriminate
    end.
  - eexists (str "channelID=" ++ dq :: _ :: _ ++ [dq]); split;
      [cbn; rewrite <- app_assoc; reflexivity|].
    right; left. exists (str "channelID="), dq; eexists; split;
      [reflexivity|]. split; [cbn; intuition discriminate | auto].
  - eexists (str "tvg-chno=" ++ dq :: _ :: _ ++ [dq]); split;
      [cbn; rewrite <- app_assoc; reflexivity|].
    right; left. exists (str "tvg-chno="), dq; eexists; split;
      [reflexivity|]. split; [cbn; intuition discriminate | auto].
  - eexists (str "tvg-name=" ++ dq :: _ :: _ ++ [dq]); split;
      [cbn; rewrite <- app_assoc; reflexivity|].
    right; left. exists (str "tvg-name="), dq; eexists; split;
      [reflexivity|]. split; [cbn; intuition discriminate | auto].
  - eexists (str "tvg-id=" ++ dq :: _ :: _ ++ [dq]); split;
      [cbn; rewrite <- app_assoc; reflexivity|].
    right; left. exists (str "tvg-id="), dq; eexists; split;
      [reflexivity|]. split; [cbn; intuition discriminate | auto].
  - eexists (str "tvg-logo=" ++ dq :: _ :: _ ++ [dq]); split;
      [cbn; rewrite <- app_assoc; reflexivity|].
    right; left. exists (str "tvg-logo="), dq; eexists; split;
      [reflexivity|]. split; [cbn; intuition discriminate | auto].
  - eexists (str "group-title=" ++ dq :: _ :: _ ++ [dq]); split;
      [cbn; rewrite <- app_assoc; reflexivity|].
    right; left. exists (str "group-title="), dq; eexists; split;
      [reflexivity|]. split; [cbn; intuition discriminate | auto].
  - eexists (","%char :: _); split; [reflexivity|]. left; eauto.
  - match goal with
    | |- exists w, (_ :: _ :: _ :: _ :: _ :: _ :: ?T) = w ++ s' /\ _ =>
        assert (E : exists T', T = T' ++ s')
          by (repeat (apply ends_with_cons || apply ends_with_app);
              exists []; reflexivity);
        destruct E as [T' ->]
    end.
    exists (str "http:" ++ "/"%char :: T'); split; [reflexivity|].
    right; left. exists (str "http:"), "/"%char, T'. split; [reflexivity|].
    split; [cbn; intuition discriminate | auto].
Qed.

(** With no comma, double quote or slash before it, the scan reaches the
    first comma. *)
Lemma scan_reaches_first_comma (R : text) : forall p,
  ~ In ","%char p -> ~ In dq p -> ~ In "/"%char p ->
  In (","%char :: R) (scan_positions regex_stream (p ++ ","%char :: R)).
Proof.
  intros p. remember (length p) as n eqn:L. revert p L.
  induction n as [n IH] using lt_wf_ind. intros p L Nc Nq Ns.
  rewrite scan_positions_step. destruct p as [|c p]; [left; reflexivity|].
  right.
  assert (T : exists p', scan_next regex_stream ((c :: p) ++ ","%char :: R)
                         = Some (p' ++ ","%char :: R)
                         /\ length p' < length (c :: p)
                         /\ ~ In ","%char p' /\ ~ In dq p'
                         /\ ~ In "/"%char p').
  { destruct (match_here regex_stream ((c :: p) ++ ","%char :: R))
      as [m|] eqn:M.
    - rewrite (stream_scan_next _ _ M).
      pose proof (stream_match_nonempty _ _ M) as Lm.
      apply match_here_sound, stream_match_span in M
        as (w & E & [[t ->]|[(w1 & x & w2 & -> & N1 & X)|N]]).
      + injection E as E _. destruct Nc; left; auto.
      + rewrite <- app_assoc in E.
        apply prefix_without in E as (p' & E & E'); [|exact N1].
        assert (I : In x (c :: p)).
        { rewrite E. apply in_or_app; right.
          destruct p' as [|y p']; simpl in E'; injection E' as E' _.
          - destruct X as [-> | ->]; discriminate.
          - left; auto. }
        destruct X as [-> | ->]; [destruct (Nq I) | destruct (Ns I)].
      + apply prefix_without in E as (p' & E & E'); [|exact N].
        exists p'. rewrite E'. split; [reflexivity|].
        rewrite E' in Lm. rewrite !length_app in Lm.
        assert (S : forall y, In y p' -> In y (c :: p))
          by (intros y I; rewrite E; apply in_or_app; right; exact I).
        repeat split; try (intros I; apply S in I; auto).
        cbn [length] in *. lia.
    - exists p. unfold scan_next. rewrite M. cbn [app].
      split; [reflexivity|]. cbn [length].
      repeat split; try lia; intros I; [apply Nc|apply Nq|apply Ns];
        right; exact I. }
  destruct T as (p' & -> & Lp & Nc' & Nq' & Ns').
  apply (IH (length p')); auto. subst n; exact Lp.
Qed.

(** For a metadata line with no double quote and no slash before its
    first comma, [chan_name] is what follows the first comma. *)
Lemma chan_name_after_first_comma (pre name url : text) :
  ~ In ","%char pre -> ~ In dq pre -> ~ In "/"%char pre ->
  name <> [] -> ~ In nl name -> ~ In ","%char url ->
  dict_get (str "chan_name")
    (stream_entry (join_nl (pre ++ ","%char :: name, url)))
  = Some (PStr name).
Proof.
  intros Nc Nq Ns. apply chan_name_at_position.
  unfold join_nl; cbn [fst snd]. rewrite <- app_assoc.
  apply scan_reaches_first_comma; auto.
Qed.

(** ** Repeated keys *)

(** C9: when the items of one line pair give several values for a key,
    the entry holds the last of them. *)
Theorem repeated_key_last_wins (line k : text) (vs : list pyval) :
  values_of k (stream_items line) = vs -> 2 <= length vs ->
  dict_get k (stream_entry line) = Some (last vs PNone).
Proof.
  intros V L. rewrite stream_entry_get. fold (stream_items line). rewrite V.
  destruct vs as [|v vs] using rev_ind; [simpl in L; lia|].
  rewrite rev_app_distr, last_last. reflexivity.
Qed.

Lemma repeated_key_last_wins_witness :
  dict_get (str "tvg_id") (stream_entry (join_nl (sample_repeated, sample_url)))
  = Some (PStr (str "b")).
Proof.
  apply (repeated_key_last_wins (join_nl (sample_repeated, sample_url))
           (str "tvg_id") [PStr (str "a"); PStr (str "b")]).
  - vm_compute; reflexivity.
  - simpl; lia.
Defined.

(** ** The header *)

Lemma re_search_some r : forall s m,
  re_search r s = Some m ->
  exists pre t, s = pre ++ t /\ match_here r t = Some m.
Proof.
  induction s as [|c s IH]; simpl; intros m H.
  - destruct (match_here r []) eqn:M; [|discriminate].
    injection H as ->. exists [], []; auto.
  - destruct (match_here r (c :: s)) eqn:M.
    + injection H as ->. exists [], (c :: s); auto.
    + destruct (IH _ H) as (pre & t & -> & M'). exists (c :: pre), t; auto.
Qed.

Lemma re_search_none r : forall s,
  re_search r s = None ->
  forall pre t, s = pre ++ t -> match_here r t = None.
Proof.
  induction s as [|c s IH]; simpl; intros H pre t E.
  - destruct (match_here r []) eqn:M; [discriminate|].
    destruct pre; [|discriminate]. simpl in E; subst t; exact M.
  - destruct (match_here r (c :: s)) eqn:M; [discriminate|].
    destruct pre as [|c' pre]; simpl in E.
    + subst t; exact M.
    + injection E as <- ->. eapply IH; eauto.
Qed.

Lemma dot_run (w : text) : forallb (cmem CDot) w = true <-> ~ In nl w.
Proof.
  induction w as [|c w IH]; simpl.
  - split; [intros _ [] | reflexivity].
  - rewrite andb_true_iff, IH, negb_true_iff. split.
    + intros [E N] [H|H]; [|auto]. subst c. rewrite Ascii.eqb_refl in E.
      discriminate.
    + intros N. split.
      * destruct (Ascii.eqb c nl) eqn:E; [|reflexivity].
        apply Ascii.eqb_eq in E. destruct N; left; congruence.
      * intros H; apply N; right; exact H.
Qed.

(** What the header pattern matches, and the groups it sets. *)
Lemma header_derives t s' g' :
  derives regex_info t [] s' g' <->
  exists a b,
    t = (str "#EXTM3U url-tvg=" ++ quoted a
         ++ str " x-tvg-url=" ++ quoted b) ++ s'
    /\ ~ In nl a /\ ~ In nl b
    /\ g' = [(str "x_tvg_url", b); (str "url_tvg", a)].
Proof.
  unfold regex_info, quoted. cbn -[firstn length]. split.
  - intros D. break_derivation; subst.
    rewrite !firstn_app_minus.
    match goal with
    | A : forallb _ ?a = true, B : forallb _ ?b = true |- _ =>
        exists a, b; apply dot_run in A; apply dot_run in B
    end.
    repeat split; auto.
    rewrite <- !app_assoc. simpl. rewrite <- !app_assoc. reflexivity.
  - intros (a & b & -> & Na & Nb & ->).
    apply dot_run in Na; apply dot_run in Nb.
    set (s4 := dq :: s').
    set (s3 := b ++ s4).
    set (s2 := dq :: " "%char :: "x"%char :: "-"%char :: "t"%char :: "v"%char
               :: "g"%char :: "-"%char :: "u"%char :: "r"%char :: "l"%char
               :: "="%char :: dq :: s3).
    exists (a ++ s2), []; split.
    { split; [|reflexivity]. subst s2 s3 s4.
      rewrite <- !app_assoc. simpl. rewrite <- !app_assoc. reflexivity. }
    exists s2, [(str "url_tvg", a)]; split.
    { exists []; split; [|rewrite firstn_app_minus; reflexivity].
      exists a; auto. }
    exists s3, [(str "url_tvg", a)]; split; [split; reflexivity|].
    exists s4, [(str "x_tvg_url", b); (str "url_tvg", a)]; split.
    { eexists; split; [|unfold s3; rewrite firstn_app_minus; reflexivity].
      exists b; auto. }
    split; reflexivity.
Qed.

Lemma header_search (l : text) :
  header_line l <-> exists m, re_search regex_info l = Some m.
Proof.
  split.
  - intros (pre & a & b & post & -> & Na & Nb).
    destruct (re_search regex_info (pre ++ _)) as [m|] eqn:S; [eauto|].
    pose proof (re_search_none _ _ S _ _ eq_refl) as M.
    assert (D : derives regex_info
                  ((str "#EXTM3U url-tvg=" ++ quoted a
                    ++ str " x-tvg-url=" ++ quoted b) ++ post) [] post
                  [(str "x_tvg_url", b); (str "url_tvg", a)]).
    { apply header_derives. exists a, b; auto. }
    destruct (match_here_none _ _ M _ _ D).
  - intros [m S]. apply re_search_some in S as (pre & t & -> & M).
    apply match_here_sound, header_derives in M
      as (a & b & -> & Na & Nb & _).
    exists pre, a, b, (m_rest m); auto.
Qed.

(** The two groups of a header match are both set. *)
Lemma header_groupdict (l : text) (m : rmatch) :
  re_search regex_info l = Some m ->
  exists a b,
    groupdict regex_info m
    = [(str "url_tvg", PStr a); (str "x_tvg_url", PStr b)].
Proof.
  intros S. apply re_search_some in S as (pre & t & -> & M).
  apply match_here_sound, header_derives in M as (a & b & _ & _ & _ & G).
  exists a, b. unfold groupdict. rewrite G. reflexivity.
Qed.

(** ** The parser as a whole *)

Lemma m3u_data_ok (src h : text) (body : list text) (m : rmatch) :
  splitlines src = h :: body -> re_search regex_info h = Some m ->
  exists a b,
    m3u_data src
    = Ok [(str "url_tvg", PStr a); (str "x_tvg_url", PStr b);
          (str "streams",
           PList (map (fun line => PDict (stream_entry line))
                      (line_pairs body)))].
Proof.
  intros L S. destruct (header_groupdict _ _ S) as (a & b & G).
  exists a, b. unfold m3u_data, search_groupdict.
  rewrite L; cbn [pop0 bind fst snd]. rewrite S, G. reflexivity.
Qed.

Lemma m3u_data_cases (src : text) :
  (splitlines src = [] /\ m3u_data src = Raise IndexError)
  \/ (exists h body, splitlines src = h :: body /\ ~ header_line h
                     /\ m3u_data src = Raise AttributeError)
  \/ (exists h body data, splitlines src = h :: body /\ header_line h
                          /\ m3u_data src = Ok data).
Proof.
  destruct (splitlines src) as [|h body] eqn:L.
  - left. split; [reflexivity|]. unfold m3u_data. rewrite L. reflexivity.
  - right. destruct (re_search regex_info h) as [m|] eqn:S.
    + right. destruct (m3u_data_ok _ _ _ _ L S) as (a & b & E).
      exists h, body. eexists. split; [reflexivity|]. split; [|exact E].
      apply header_search; eauto.
    + left. exists h, body. split; [reflexivity|]. split.
      * intros H. apply header_search in H as [m H]. congruence.
      * unfold m3u_data, search_groupdict.
        rewrite L; cbn [pop0 bind fst snd]. rewrite S. reflexivity.
Qed.

(** C1: the parser fails exactly when the text has no first line holding
    the header; a failure is an exception raised before any document is
    built, [IndexError] for a text with no line and [AttributeError] for a
    first line without the header; with the header in the first line the
    parser returns. *)
Theorem m3u_fails_iff_no_header (src : text) :
  ((exists e, m3u_to_json src = Raise e) <-> ~ first_line_matches src)
  /\ (first_line_matches src -> exists out, m3u_to_json src = Ok out)
  /\ (forall e, m3u_to_json src = Raise e ->
        m3u_data src = Raise e
        /\ ((e = IndexError /\ splitlines src = [])
            \/ (e = AttributeError
                /\ exists l rest, splitlines src = l :: rest
                                  /\ ~ header_line l))).
Proof.
  unfold m3u_to_json, first_line_matches.
  destruct (m3u_data_cases src)
    as [[L E]|[(h & body & L & N & E)|(h & body & data & L & H & E)]];
    rewrite E; cbn [bind].
  - split; [|split].
    + split; [intros _ (l & rest & L' & _); congruence | eauto].
    + intros (l & rest & L' & _); congruence.
    + intros e X; injection X as <-. auto.
  - split; [|split].
    + split; [|eauto]. intros _ (l & rest & L' & H).
      rewrite L in L'; injection L' as <- <-. auto.
    + intros (l & rest & L' & H).
      rewrite L in L'; injection L' as <- <-. destruct (N H).
    + intros e X; injection X as <-. split; [reflexivity|].
      right. split; [reflexivity|]. eauto.
  - split; [|split].
    + split; [intros [e X]; discriminate|].
      intros N; destruct N; eauto.
    + eauto.
    + intros e X; discriminate.
Qed.

(** C8: what the parser returns is the JSON text of an object with the
    three keys [url_tvg], [x_tvg_url] and [streams], in that order, the
    first two bound to texts and the third to a list of objects. *)
Theorem m3u_json_shape (src out : text) :
  m3u_to_json src = Ok out ->
  exists (a b : text) (entries : list dict),
    m3u_data src
    = Ok [(str "url_tvg", PStr a); (str "x_tvg_url", PStr b);
          (str "streams", PList (map PDict entries))]
    /\ out
       = json_dumps
           (PDict [(str "url_tvg", PStr a); (str "x_tvg_url", PStr b);
                   (str "streams", PList (map PDict entries))]).
Proof.
  unfold m3u_to_json. intros H.
  destruct (splitlines src) as [|h body] eqn:L.
  { unfold m3u_data in H. rewrite L in H. discriminate. }
  destruct (re_search regex_info h) as [m|] eqn:S.
  - destruct (m3u_data_ok _ _ _ _ L S) as (a & b & E).
    rewrite E in H. cbn [bind] in H. injection H as <-.
    exists a, b, (map stream_entry (line_pairs body)).
    rewrite map_map. split; [exact E | reflexivity].
  - unfold m3u_data, search_groupdict in H.
    rewrite L in H; cbn [pop0 bind fst snd] in H. rewrite S in H.
    discriminate.
Qed.

Lemma m3u_json_shape_witness :
  exists (a b : text) (entries : list dict),
    m3u_data sample_playlist
    = Ok [(str "url_tvg", PStr a); (str "x_tvg_url", PStr b);
          (str "streams", PList (map PDict entries))]
    /\ match m3u_to_json sample_playlist with Ok out => out | Raise _ => [] end
       = json_dumps
           (PDict [(str "url_tvg", PStr a); (str "x_tvg_url", PStr b);
                   (str "streams", PList (map PDict entries))]).
Proof.
  apply (m3u_json_shape sample_playlist). vm_compute. reflexivity.
Defined.

(** ** Line pairs *)

Lemma line_pairs_cons2 (x y : text) (t : list text) :
  line_pairs (x :: y :: t) = join_nl (x, y) :: line_pairs t.
Proof. reflexivity. Qed.

Lemma pair_ind (P : list text -> Prop) :
  P [] -> (forall x, P [x]) -> (forall x y t, P t -> P (x :: y :: t)) ->
  forall l, P l.
Proof.
  intros H0 H1 H2.
  assert (H : forall l, P l /\ forall x, P (x :: l)).
  { induction l as [|y l [IH1 IH2]]; split; auto. }
  intros l; apply H.
Qed.

Lemma line_pairs_length (body : list text) :
  length (line_pairs body) = length body / 2.
Proof.
  induction body as [|x|x y t IH] using pair_ind; try reflexivity.
  rewrite line_pairs_cons2. cbn [length]. rewrite IH.
  change (S (S (length t))) with (1 * 2 + length t).
  rewrite Nat.div_add_l by lia. lia.
Qed.

Lemma line_pairs_nth (body : list text) : forall i,
  i < length body / 2 ->
  nth i (line_pairs body) []
  = join_nl (nth (2 * i) body [], nth (2 * i + 1) body []).
Proof.
  induction body as [|x|x y t IH] using pair_ind; intros i L.
  - simpl in L; lia.
  - simpl in L; lia.
  - rewrite line_pairs_cons2. destruct i as [|i]; [reflexivity|].
    cbn [length] in L. change (S (S (length t))) with (1 * 2 + length t) in L.
    rewrite Nat.div_add_l in L by lia.
    replace (2 * S i) with (S (S (2 * i))) by lia.
    replace (S (S (2 * i)) + 1) with (S (S (2 * i + 1))) by lia.
    cbn [nth]. apply IH. lia.
Qed.

(** The last of an odd number of lines has no part in the pairs. *)
Lemma line_pairs_odd (body : list text) :
  Nat.odd (length body) = true ->
  line_pairs body = line_pairs (removelast body).
Proof.
  induction body as [|x|x y t IH] using pair_ind; intros O.
  - discriminate.
  - reflexivity.
  - destruct t as [|z t]; [discriminate|].
    change (removelast (x :: y :: z :: t)) with (x :: y :: removelast (z :: t)).
    rewrite !line_pairs_cons2. f_equal. apply IH. exact O.
Qed.

Lemma streams_of_data (a b : pyval) (l : list pyval) :
  streams_of [(str "url_tvg", a); (str "x_tvg_url", b);
              (str "streams", PList l)] = l.
Proof. reflexivity. Qed.

(** C3: with the header in the first line and [K] lines after it, the
    parser returns a document whose [streams] has [K / 2] entries, the
    [i]-th built from lines [2 i] and [2 i + 1] of the body; the last of an
    odd number of body lines changes nothing. *)
Theorem streams_pairwise (src h : text) (body : list text) :
  splitlines src = h :: body -> header_line h ->
  exists data,
    m3u_data src = Ok data
    /\ length (streams_of data) = length body / 2
    /\ (forall i, i < length body / 2 ->
          nth i (streams_of data) PNone
          = PDict (stream_entry
                     (join_nl (nth (2 * i) body [], nth (2 * i + 1) body []))))
    /\ (Nat.odd (length body) = true ->
          streams_of data
          = map (fun line => PDict (stream_entry line))
                (line_pairs (removelast body))).
Proof.
  intros L H. apply header_search in H as [m S].
  destruct (m3u_data_ok _ _ _ _ L S) as (a & b & E).
  eexists; split; [exact E|]. rewrite streams_of_data.
  split; [|split].
  - rewrite length_map. apply line_pairs_length.
  - intros i Hi.
    rewrite <- (line_pairs_nth body i Hi).
    change PNone with ((fun line => PNone) (@nil ascii)) at 1.
    rewrite (nth_indep _ PNone (PDict (stream_entry [])))
      by (rewrite length_map, line_pairs_length; exact Hi).
    apply (map_nth (fun line => PDict (stream_entry line))).
  - intros O. rewrite (line_pairs_odd body O). reflexivity.
Qed.

Lemma streams_pairwise_witness :
  exists data,
    m3u_data sample_three_lines = Ok data
    /\ length (streams_of data) = 3 / 2
    /\ (forall i, i < 3 / 2 ->
          nth i (streams_of data) PNone
          = PDict (stream_entry
                     (join_nl
                        (nth (2 * i)
                           [sample_meta; sample_url;
                            str "#EXTINF:0,Left over"] [],
                         nth (2 * i + 1)
                           [sample_meta; sample_url;
                            str "#EXTINF:0,Left over"] []))))
    /\ (Nat.odd 3 = true ->
          streams_of data
          = map (fun line => PDict (stream_entry line))
                (line_pairs [sample_meta; sample_url])).
Proof.
  apply (streams_pairwise sample_three_lines sample_header
           [sample_meta; sample_url; str "#EXTINF:0,Left over"]).
  - vm_compute; reflexivity.
  - exists [], (str "http://a/tvg.xml"), (str "http://a/x"), [].
    split; [vm_compute; reflexivity|].
    split; vm_compute; intuition discriminate.
Defined.

(** ** Entries hold matched, non-empty values only *)

Lemma groupdict_value r m k v :
  In (k, v) (groupdict r m) ->
  v = PNone \/ exists s, v = PStr s.
Proof.
  unfold groupdict. intros H. apply in_map_iff in H as (n & E & _).
  injection E as _ <-. destruct (cap_get n (m_caps m)); eauto.
Qed.

Lemma stream_entry_in (line k : text) (v : pyval) :
  In (k, v) (stream_entry line) ->
  exists s m,
    v = PStr s /\ s <> []
    /\ In m (finditer regex_stream line)
    /\ In (k, PStr s) (groupdict regex_stream m).
Proof.
  unfold stream_entry. intros H.
  apply dict_update_in in H as [[]|H].
  unfold stream_items, match_items in H.
  apply filter_In in H as [H T]. cbn [snd] in T.
  apply in_flat_map in H as (m & I & G).
  destruct (groupdict_value _ _ _ _ G) as [->|[s ->]]; [discriminate|].
  exists s, m. repeat split; auto.
  intros ->; discriminate.
Qed.

(** C2: in a parsed document every entry of [streams] is the dictionary
    built from one line pair; each of its keys is bound to a text that is
    not empty, captured by the group of that name in a match found in that
    pair; no key is bound to an empty text or to [None]. *)
Theorem entries_hold_matched_values (src : text) (data : dict) :
  m3u_data src = Ok data ->
  Forall
    (fun e =>
       exists d line,
         e = PDict d
         /\ In line (line_pairs (tl (splitlines src)))
         /\ d = stream_entry line
         /\ forall k v, In (k, v) d ->
              exists s m,
                v = PStr s /\ s <> []
                /\ In m (finditer regex_stream line)
                /\ In (k, PStr s) (groupdict regex_stream m))
    (streams_of data).
Proof.
  intros E. apply Forall_forall. intros e I.
  destruct (m3u_data_cases src)
    as [[L E']|[(h & body & L & N & E')|(h & body & data' & L & H & E')]];
    try congruence.
  apply header_search in H as [m S].
  destruct (m3u_data_ok _ _ _ _ L S) as (a & b & E'').
  rewrite E'' in E. injection E as <-. rewrite streams_of_data in I.
  apply in_map_iff in I as (line & <- & I).
  exists (stream_entry line), line. rewrite L. cbn [tl].
  repeat split; auto. intros k v. apply stream_entry_in.
Qed.

Lemma entries_hold_matched_values_witness :
  Forall
    (fun e =>
       exists d line,
         e = PDict d
         /\ In line (line_pairs (tl (splitlines sample_playlist)))
         /\ d = stream_entry line
         /\ forall k v, In (k, v) d ->
              exists s m,
                v = PStr s /\ s <> []
                /\ In m (finditer regex_stream line)
                /\ In (k, PStr s) (groupdict regex_stream m))
    (streams_of
       match m3u_data sample_playlist with Ok d => d | Raise _ => [] end).
Proof.
  apply (entries_hold_matched_values sample_playlist).
  vm_compute; reflexivity.
Defined.

(** ** The guide generator *)

Lemma unpack4_ok (c : record) :
  arity4 c -> exists v, unpack4 c = Ok v.
Proof.
  unfold arity4. destruct c as [|a [|b [|x [|d [|e c]]]]]; simpl; intros L;
    try discriminate. eauto.
Qed.

Lemma unpack4_raise (c : record) :
  ~ arity4 c -> unpack4 c = Raise ValueError.
Proof.
  unfold arity4. destruct c as [|a [|b [|x [|d [|e c]]]]]; simpl; intros L;
    try reflexivity. destruct L; reflexivity.
Qed.

Lemma program_fields_ok (p : record) :
  arity5or6 p -> exists v, program_fields p = Ok v.
Proof.
  unfold arity5or6, program_fields.
  destruct p as [|a [|b [|c [|d [|e [|f [|g p]]]]]]]; simpl; intros [L|L];
    try discriminate; eauto.
Qed.

Lemma program_fields_raise (p : record) :
  ~ arity5or6 p -> program_fields p = Raise ValueError.
Proof.
  unfold arity5or6, program_fields.
  destruct p as [|a [|b [|c [|d [|e [|f [|g p]]]]]]]; simpl; intros L;
    try reflexivity; destruct L; auto.
Qed.

Lemma arity4_dec (c : record) : {arity4 c} + {~ arity4 c}.
Proof. apply Nat.eq_dec. Qed.

Lemma arity5or6_dec (p : record) : {arity5or6 p} + {~ arity5or6 p}.
Proof.
  unfold arity5or6.
  destruct (Nat.eq_dec (length p) 5); [left; auto|].
  destruct (Nat.eq_dec (length p) 6); [left; auto|].
  right; intros [H|H]; auto.
Qed.

Lemma channels_loop_cases (channels : list record) : forall acc,
  (Forall arity4 channels /\ exists xml, channels_loop acc channels = Ok xml)
  \/ (~ Forall arity4 channels
      /\ channels_loop acc channels = Raise ValueError).
Proof.
  induction channels as [|c channels IH]; intros acc; simpl.
  - left; eauto.
  - destruct (arity4_dec c) as [A|A].
    + destruct (unpack4_ok c A) as ([[[i n] l] d] & ->). cbn [bind].
      destruct (IH (acc ++ channel_block i n l)) as [[F X]|[F X]].
      * left; auto.
      * right; split; [|exact X]. intros H; inversion H; auto.
    + right. rewrite (unpack4_raise c A). split; [|reflexivity].
      intros H; inversion H; auto.
Qed.

Lemma programs_loop_cases (programs : list record) : forall acc,
  (Forall arity5or6 programs
   /\ exists xml, programs_loop acc programs = Ok xml)
  \/ (~ Forall arity5or6 programs
      /\ programs_loop acc programs = Raise ValueError).
Proof.
  induction programs as [|p programs IH]; intros acc; simpl.
  - left; eauto.
  - destruct (arity5or6_dec p) as [A|A].
    + destruct (program_fields_ok p A) as ([[[[i t] s] e] d] & ->).
      cbn [bind].
      destruct (IH (acc ++ programme_block i t s e d)) as [[F X]|[F X]].
      * left; auto.
      * right; split; [|exact X]. intros H; inversion H; auto.
    + right. rewrite (program_fields_raise p A). split; [|reflexivity].
      intros H; inversion H; auto.
Qed.

(** For a base URL of which [furl] gives the origin, the generator returns
    exactly when the arities are right, and raises [ValueError] otherwise. *)
Lemma gen_cases
      (furl_origin : text -> result text)
      (channels programs : list record) (url origin : text) :
  furl_origin url = Ok origin ->
  (Forall arity4 channels /\ Forall arity5or6 programs
   /\ exists xml, gen_xmltv_xml furl_origin channels programs url = Ok xml)
  \/ (~ (Forall arity4 channels /\ Forall arity5or6 programs)
      /\ gen_xmltv_xml furl_origin channels programs url = Raise ValueError).
Proof.
  intros O. unfold gen_xmltv_xml. rewrite O. cbn [bind].
  destruct (channels_loop_cases channels []) as [[Fc [xc ->]]|[Fc ->]];
    cbn [bind].
  - destruct (programs_loop_cases programs []) as [[Fp [xp ->]]|[Fp ->]];
      cbn [bind].
    + left; eauto.
    + right; split; [intros [_ F]; destruct (Fp F) | reflexivity].
  - right; split; [intros [F _]; destruct (Fc F) | reflexivity].
Qed.

(** C4, as amended: for a base URL of which [furl] gives the origin, the
    generator returns a text, raising nothing, whenever every channel
    record has four values and every program record five or six, whatever
    the values and their order. *)
Theorem gen_returns_on_right_arities
        (furl_origin : text -> result text)
        (channels programs : list record) (url origin : text) :
  furl_origin url = Ok origin ->
  Forall arity4 channels -> Forall arity5or6 programs ->
  exists xml, gen_xmltv_xml furl_origin channels programs url = Ok xml.
Proof.
  intros O Fc Fp.
  destruct (gen_cases furl_origin channels programs url origin O)
    as [(_ & _ & X)|[N _]]; [exact X | destruct N; auto].
Qed.

Lemma gen_returns_on_right_arities_witness :
  exists xml,
    gen_xmltv_xml sample_origin [sample_channel] [sample_program]
      sample_base_url = Ok xml.
Proof.
  apply (gen_returns_on_right_arities sample_origin [sample_channel]
           [sample_program] sample_base_url (str "http://host:8080")).
  - reflexivity.
  - repeat constructor.
  - repeat constructor.
Defined.

(** C4, counterexample: a channel record of three values, or a program
    record of four, makes the generator raise. *)
Lemma gen_raises_on_short_record :
  gen_xmltv_xml sample_origin [[str "1"; str "BBC"; str "http://x/logo.png"]]
    [] sample_base_url = Raise ValueError
  /\ gen_xmltv_xml sample_origin []
       [[str "1"; str "News"; str "20240101000000"; str "20240101010000"]]
       sample_base_url = Raise ValueError.
Proof. split; reflexivity. Qed.

(** C10: with no channel and no program the generator returns the
    prolog, the DOCTYPE and the opening [tv] tag carrying the origin of the
    base URL, and the closing [tv] line right after. *)
Theorem gen_empty_guide
        (furl_origin : text -> result text) (url origin : text) :
  furl_origin url = Ok origin ->
  gen_xmltv_xml furl_origin [] [] url
  = Ok (str "<?xml version=" ++ quoted (str "1.0")
          ++ str " encoding=" ++ quoted (str "utf-8") ++ str " ?>" ++ [nl]
        ++ str "<!DOCTYPE tv SYSTEM " ++ quoted (str "xmltv.dtd")
          ++ str ">" ++ [nl]
        ++ str "<tv generator-info-name=" ++ quoted (str "IPTV")
          ++ str " generator-info-url=" ++ quoted origin ++ str ">" ++ [nl]
        ++ str "</tv>" ++ [nl]).
Proof.
  intros O. unfold gen_xmltv_xml. rewrite O. cbn [bind channels_loop programs_loop].
  unfold xml_header, xml_footer. f_equal.
  repeat (rewrite <- ?app_assoc; cbn [app]; f_equal).
Qed.

Lemma gen_empty_guide_witness :
  gen_xmltv_xml sample_origin [] [] sample_base_url
  = Ok (str "<?xml version=" ++ quoted (str "1.0")
          ++ str " encoding=" ++ quoted (str "utf-8") ++ str " ?>" ++ [nl]
        ++ str "<!DOCTYPE tv SYSTEM " ++ quoted (str "xmltv.dtd")
          ++ str ">" ++ [nl]
        ++ str "<tv generator-info-name=" ++ quoted (str "IPTV")
          ++ str " generator-info-url=" ++ quoted (str "http://host:8080")
          ++ str ">" ++ [nl]
        ++ str "</tv>" ++ [nl]).
Proof.
  apply (gen_empty_guide sample_origin sample_base_url (str "http://host:8080")).
  reflexivity.
Defined.

(** The sixth value of a program record is not used: the record with it
    and the record without it add the same text. *)
Lemma program_icon_ignored (acc a b c d e icon : text) :
  programs_loop acc [[a; b; c; d; e]]
  = Ok (acc ++ programme_block a b c d e)
  /\ programs_loop acc [[a; b; c; d; e; icon]]
     = Ok (acc ++ programme_block a b c d e).
Proof. split; reflexivity. Qed.

(** C6, the code against the claim: for a program record of five values
    and for the same record with a sixth, the generator returns the same
    text, without the sixth value; but each of the four lines of the
    programme element ends with an apostrophe, which the shape of the
    claim does not have. *)
Theorem programme_lines_end_with_apostrophe :
  gen_xmltv_xml sample_origin [] [sample_program] sample_base_url
  = gen_xmltv_xml sample_origin [] [sample_program ++ [str "icon.png"]]
      sample_base_url
  /\ gen_xmltv_xml sample_origin [] [sample_program] sample_base_url
     = Ok (xml_header (str "http://host:8080")
           ++ (str "    <programme channel=" ++ quoted (str "1")
                 ++ str " start=" ++ quoted (str "20240101000000")
                 ++ str " stop=" ++ quoted (str "20240101010000")
                 ++ str ">'" ++ [nl]
               ++ str "        <title lang=" ++ quoted (str "en")
                 ++ str ">News</title>'" ++ [nl]
               ++ str "        <desc lang=" ++ quoted (str "en")
                 ++ str ">Daily</desc>'" ++ [nl]
               ++ str "    </programme>'" ++ [nl])
           ++ str "</tv>" ++ [nl]).
Proof. split; vm_compute; reflexivity. Qed.

(** ** Worked examples *)

Example splitlines_boundaries :
  splitlines (str "a" ++ [cr; nl] ++ str "b" ++ [nl; nl] ++ str "c" ++ [cr])
  = [str "a"; str "b"; []; str "c"]
  /\ splitlines [] = []
  /\ splitlines [nl] = [[]].
Proof. repeat split. Qed.

(** A pair with the duration, the six quoted attributes, the name and the
    URL gives the nine keys, in the order the scan meets them. *)
Example entry_with_nine_keys :
  stream_entry
    (join_nl
       (str "#EXTINF:0 channelID=" ++ quoted (str "x-ID.0")
        ++ str " tvg-chno=" ++ quoted (str "1")
        ++ str " tvg-name=" ++ quoted (str "CBS")
        ++ str " tvg-id=" ++ quoted (str "cbs.us")
        ++ str " tvg-logo=" ++ quoted (str "http://h/cbs.png")
        ++ str " group-title=" ++ quoted (str "News") ++ str ",CBS HD",
        sample_url))
  = [(str "ext_inf", PStr (str "0"));
     (str "channelID", PStr (str "x-ID.0"));
     (str "tvg_chno", PStr (str "1"));
     (str "tvg_name", PStr (str "CBS"));
     (str "tvg_id", PStr (str "cbs.us"));
     (str "tvg_logo", PStr (str "http://h/cbs.png"));
     (str "group_title", PStr (str "News"));
     (str "chan_name", PStr (str "CBS HD"));
     (str "stream_url", PStr sample_url)].
Proof. vm_compute. reflexivity. Qed.

Example header_values :
  m3u_data sample_playlist
  = Ok [(str "url_tvg", PStr (str "http://a/tvg.xml"));
        (str "x_tvg_url", PStr (str "http://a/x"));
        (str "streams",
         PList [PDict [(str "ext_inf", PStr (str "0"));
                       (str "tvg_name", PStr (str "Sports, One"));
                       (str "group_title", PStr (str "Sports"));
                       (str "chan_name", PStr (str "Sports One, HD"));
                       (str "stream_url", PStr sample_url)]])].
Proof. vm_compute. reflexivity. Qed.

Example json_of_small_playlist :
  m3u_to_json (sample_header ++ nl :: str "#EXTINF:7,A" ++ nl :: str "x")
  = Ok (str "{" ++ quoted (str "url_tvg") ++ str ": "
          ++ quoted (str "http://a/tvg.xml") ++ str ", "
        ++ quoted (str "x_tvg_url") ++ str ": "
          ++ quoted (str "http://a/x") ++ str ", "
        ++ quoted (str "streams") ++ str ": [{"
          ++ quoted (str "ext_inf") ++ str ": " ++ quoted (str "7") ++ str ", "
          ++ quoted (str "chan_name") ++ str ": " ++ quoted (str "A")
        ++ str "}]}").
Proof. vm_compute. reflexivity. Qed.

Example no_input_no_header :
  m3u_to_json [] = Raise IndexError
  /\ m3u_to_json (str "#EXTM3U") = Raise AttributeError.
Proof. split; reflexivity. Qed.

Example one_channel_guide :
  gen_xmltv_xml sample_origin [sample_channel] [] sample_base_url
  = Ok (xml_header (str "http://host:8080")
        ++ (str "    <channel id=" ++ quoted (str "1") ++ str ">" ++ [nl]
            ++ str "        <display-name>BBC</display-name>" ++ [nl]
            ++ str "        <icon src=" ++ quoted (str "http://x/logo.png")
              ++ str "/>" ++ [nl]
            ++ str "    </channel>" ++ [nl])
        ++ str "</tv>" ++ [nl]).
Proof. vm_compute. reflexivity. Qed.

(** * Further properties *)

(** ** The word matcher *)

Lemma wstar_sound (R : Type) cl s (k : text -> option R) x :
  wstar R cl s k = Some x ->
  exists w s', s = w ++ s' /\ forallb (wmem cl) w = true /\ k s' = Some x.
Proof.
  induction s as [|c s IH]; simpl; intros H.
  - exists [], []; auto.
  - destruct (wmem cl c) eqn:C.
    + destruct (wstar R cl s k) as [y|] eqn:S.
      * injection H as ->.
        destruct (IH eq_refl) as (w & s' & -> & F & K).
        exists (c :: w), s'; simpl; rewrite C, F; auto.
      * exists [], (c :: s); auto.
    + exists [], (c :: s); auto.
Qed.

Lemma wstar_complete (R : Type) cl s (k : text -> option R) :
  wstar R cl s k = None ->
  forall w s', s = w ++ s' -> forallb (wmem cl) w = true -> k s' = None.
Proof.
  induction s as [|c s IH]; simpl; intros H w s' E F.
  - destruct w; [|discriminate]. simpl in E; subst s'; exact H.
  - destruct w as [|c' w]; simpl in E.
    + subst s'. destruct (wmem cl c); [|exact H].
      destruct (wstar R cl s k); [discriminate | exact H].
    + injection E as <- ->. simpl in F. apply andb_true_iff in F as [C F].
      rewrite C in H. destruct (wstar R cl (w ++ s') k) eqn:S; [discriminate|].
      eapply IH; eauto.
Qed.

Lemma wstar_longest (R : Type) cl w s' (k : text -> option R) x :
  forallb (wmem cl) w = true -> k s' = Some x ->
  match s' with c :: _ => wmem cl c = false | [] => True end ->
  wstar R cl (w ++ s') k = Some x.
Proof.
  intros F K E. induction w as [|c w IH]; simpl.
  - destruct s' as [|c s']; [exact K|]. simpl. rewrite E. exact K.
  - simpl in F. apply andb_true_iff in F as [C F].
    rewrite C, (IH F). reflexivity.
Qed.

Lemma wexec_sound r : forall (R : Type) s (k : text -> option R) x,
  wexec R r s k = Some x ->
  exists s', wderives r s s' /\ k s' = Some x.
Proof.
  induction r as [cl|cl|cl|a IHa b IHb|a IHa b IHb|a IHa];
    simpl; intros R s k x H.
  - destruct s as [|c s]; [discriminate|].
    destruct (wmem cl c) eqn:C; [|discriminate].
    exists s; split; [exists c|]; auto.
  - destruct s as [|c s]; [discriminate|].
    destruct (wmem cl c) eqn:C; [|discriminate].
    apply wstar_sound in H as (w & s' & -> & F & K).
    exists s'; split; [exists c, w|]; auto.
  - destruct s as [|c s]; [exists []; auto|].
    destruct (wmem cl c) eqn:C; [|exists (c :: s); auto].
    destruct (k s) as [y|] eqn:K.
    + injection H as ->. exists s; split; [right; exists c|]; auto.
    + exists (c :: s); auto.
  - apply IHa in H as (s1 & Da & H).
    apply IHb in H as (s' & Db & H).
    exists s'; split; [exists s1|]; auto.
  - destruct (wexec R a s k) as [y|] eqn:A.
    + injection H as ->. apply IHa in A as (s' & D & K). exists s'; auto.
    + apply IHb in H as (s' & D & K). exists s'; auto.
  - destruct (wexec unit a s (fun _ => Some tt)) as [u|] eqn:A; [|discriminate].
    apply IHa in A as (t & D & _).
    exists s; split; [split; [reflexivity | exists t; exact D] | exact H].
Qed.

Lemma wexec_complete r : forall (R : Type) s (k : text -> option R),
  wexec R r s k = None ->
  forall s', wderives r s s' -> k s' = None.
Proof.
  induction r as [cl|cl|cl|a IHa b IHb|a IHa b IHb|a IHa];
    simpl; intros R s k H s' D.
  - destruct D as (c & -> & C). rewrite C in H. exact H.
  - destruct D as (c & w & -> & C & F). rewrite C in H.
    exact (wstar_complete R cl (w ++ s') k H w s' eq_refl F).
  - destruct D as [->|(c & -> & C)].
    + destruct s as [|c s]; [exact H|].
      destruct (wmem cl c); [|exact H].
      destruct (k s); [discriminate | exact H].
    + rewrite C in H. destruct (k s'); [discriminate | reflexivity].
  - destruct D as (s1 & Da & Db).
    pose proof (IHa _ _ _ H _ Da) as Ha. simpl in Ha.
    exact (IHb _ _ _ Ha _ Db).
  - destruct (wexec R a s k) eqn:A; [discriminate|].
    destruct D as [D|D]; eauto.
  - destruct D as (-> & t & D).
    destruct (wexec unit a s (fun _ => Some tt)) as [u|] eqn:A; [exact H|].
    pose proof (IHa _ _ _ A _ D) as X. discriminate.
Qed.

Lemma wmatch_here_sound r s s' :
  wmatch_here r s = Some s' -> wderives r s s'.
Proof.
  unfold wmatch_here; intros H.
  apply wexec_sound in H as (t & D & K). injection K as <-. exact D.
Qed.

Lemma wmatch_here_none r s :
  wmatch_here r s = None -> forall s', ~ wderives r s s'.
Proof.
  unfold wmatch_here; intros H s' D.
  pose proof (wexec_complete _ _ _ _ H _ D) as K. discriminate.
Qed.

(** ** The scan of [findall] *)

Lemma wscan_next_shorter r s t :
  wscan_next r s = Some t -> length t < length s.
Proof.
  unfold wscan_next. destruct (wmatch_here r s) as [s'|].
  - destruct (length s' <? length s) eqn:L.
    + intros E; injection E as <-. apply Nat.ltb_lt; exact L.
    + destruct s; [discriminate|]. intros E; injection E as <-. simpl; lia.
  - destruct s; [discriminate|]. intros E; injection E as <-. simpl; lia.
Qed.

Lemma findall_fuel_step n r s :
  findall_fuel (S n) r s
  = match wmatch_here r s with
    | Some s' => [firstn (length s - length s') s]
    | None => []
    end
    ++ match wscan_next r s with
       | Some t => findall_fuel n r t
       | None => []
       end.
Proof.
  unfold wscan_next. simpl.
  destruct (wmatch_here r s) as [s'|]; simpl.
  - destruct (length s' <? length s); [reflexivity|].
    destruct s; reflexivity.
  - destruct s; reflexivity.
Qed.

Lemma findall_fuel_enough r : forall n m s,
  length s < n -> length s < m -> findall_fuel n r s = findall_fuel m r s.
Proof.
  induction n as [|n IH]; intros [|m] s Hn Hm; try lia.
  rewrite !findall_fuel_step. f_equal.
  destruct (wscan_next r s) as [t|] eqn:E; [|reflexivity].
  apply wscan_next_shorter in E. apply IH; lia.
Qed.

Lemma findall_step r s :
  findall r s
  = match wmatch_here r s with
    | Some s' => [firstn (length s - length s') s]
    | None => []
    end
    ++ match wscan_next r s with
       | Some t => findall r t
       | None => []
       end.
Proof.
  unfold findall. rewrite findall_fuel_step. f_equal.
  destruct (wscan_next r s) as [t|] eqn:E; [|reflexivity].
  apply wscan_next_shorter in E. apply findall_fuel_enough; lia.
Qed.

Lemma wscan_ind (r : wregex) (P : text -> Prop) :
  (forall s, (forall t, wscan_next r s = Some t -> P t) -> P s) ->
  forall s, P s.
Proof.
  intros step s.
  assert (H : forall n s, length s < n -> P s).
  { induction n as [|n IH]; intros s0 L; [lia|].
    apply step. intros t E. apply wscan_next_shorter in E. apply IH; lia. }
  apply (H (S (length s))); lia.
Qed.

(** ** The word pattern *)

Lemma wmem_alnum cl c : wmem cl c = true -> is_alnum c = true.
Proof.
  unfold is_alnum. destruct cl; simpl; intros ->;
    rewrite ?orb_true_r; reflexivity.
Qed.

Lemma wmem_run_alnum cl w :
  forallb (wmem cl) w = true -> forallb is_alnum w = true.
Proof.
  induction w as [|c w IH]; simpl; [reflexivity|].
  rewrite !andb_true_iff. intros [C F]. split; [eapply wmem_alnum; eauto | auto].
Qed.

(** A word is not empty and is made of ASCII letters and digits. *)
Lemma word_derives s s' :
  wderives RE_WORDS s s' ->
  exists w, s = w ++ s' /\ w <> [] /\ forallb is_alnum w = true.
Proof.
  cbn. intros D.
  repeat match goal with
         | H : exists _, _ |- _ => destruct H
         | H : _ /\ _ |- _ => destruct H
         | H : _ \/ _ |- _ => destruct H
         end; subst;
    repeat match goal with
           | H : is_upper _ = true |- _ => apply (wmem_alnum WUpper) in H
           | H : is_lower _ = true |- _ => apply (wmem_alnum WLower) in H
           | H : is_digit _ = true |- _ => apply (wmem_alnum WDigit) in H
           | H : forallb (wmem _) _ = true |- _ => apply wmem_run_alnum in H
           end.
  - eexists (_ :: _); split; [reflexivity|]. split; [discriminate|].
    simpl. rewrite andb_true_iff; auto.
  - eexists (_ :: _); split; [reflexivity|]. split; [discriminate|].
    simpl. rewrite andb_true_iff; auto.
  - eexists (_ :: _ :: _); split; [reflexivity|]. split; [discriminate|].
    simpl. rewrite !andb_true_iff; auto.
  - eexists (_ :: _); split; [reflexivity|]. split; [discriminate|].
    simpl. rewrite andb_true_iff; auto.
  - eexists (_ :: _); split; [reflexivity|]. split; [discriminate|].
    simpl. rewrite andb_true_iff; auto.
Qed.

(** At a letter or a digit a word starts. *)
Lemma word_at_alnum c t :
  is_alnum c = true -> exists s', wderives RE_WORDS (c :: t) s'.
Proof.
  unfold is_alnum. rewrite !orb_true_iff. intros [[U|L]|D]; exists t; cbn.
  - right; right; left. exists c, []; auto.
  - right; left. exists (c :: t); split; [left; reflexivity|].
    exists c, []; auto.
  - right; right; right. exists c, []; auto.
Qed.

Lemma word_match s s' :
  wmatch_here RE_WORDS s = Some s' ->
  exists w, s = w ++ s' /\ w <> [] /\ forallb is_alnum w = true
            /\ firstn (length s - length s') s = w
            /\ wscan_next RE_WORDS s = Some s'.
Proof.
  intros M. pose proof M as D.
  apply wmatch_here_sound, word_derives in D as (w & -> & N & A).
  exists w. repeat split; auto.
  - apply firstn_app_minus.
  - unfold wscan_next. rewrite M.
    replace (length s' <? length (w ++ s')) with true; [reflexivity|].
    symmetry; apply Nat.ltb_lt. rewrite length_app.
    destruct w; [congruence | simpl; lia].
Qed.

Lemma word_no_match s :
  wmatch_here RE_WORDS s = None ->
  s = [] \/ exists c t, s = c :: t /\ is_alnum c = false
                        /\ wscan_next RE_WORDS s = Some t.
Proof.
  intros M. destruct s as [|c t]; [left; reflexivity|]. right.
  exists c, t. split; [reflexivity|]. split.
  - destruct (is_alnum c) eqn:A; [|reflexivity].
    destruct (word_at_alnum c t A) as [s' D].
    destruct (wmatch_here_none _ _ M _ D).
  - unfold wscan_next. rewrite M. reflexivity.
Qed.

Lemma filter_all (f : ascii -> bool) (w : text) :
  forallb f w = true -> filter f w = w.
Proof.
  induction w as [|c w IH]; simpl; [reflexivity|].
  rewrite andb_true_iff. intros [C F]. rewrite C, IH; auto.
Qed.

(** The words, put end to end, are the letters and digits of the text. *)
Lemma findall_words_concat s :
  concat (findall RE_WORDS s) = filter is_alnum s.
Proof.
  pattern s; apply (wscan_ind RE_WORDS); clear s; intros s IH.
  rewrite findall_step.
  destruct (wmatch_here RE_WORDS s) as [s'|] eqn:M.
  - destruct (word_match _ _ M) as (w & -> & N & A & F & X).
    rewrite X, F. cbn [app concat].
    rewrite (IH s' X), filter_app, (filter_all _ _ A). reflexivity.
  - destruct (word_no_match _ M) as [->|(c & t & -> & A & X)];
      [reflexivity|].
    rewrite X. cbn [app filter]. rewrite A. apply IH; exact X.
Qed.

Lemma findall_words_alnum s :
  Forall (fun w => w <> [] /\ forallb is_alnum w = true) (findall RE_WORDS s).
Proof.
  pattern s; apply (wscan_ind RE_WORDS); clear s; intros s IH.
  rewrite findall_step.
  destruct (wmatch_here RE_WORDS s) as [s'|] eqn:M.
  - destruct (word_match _ _ M) as (w & -> & N & A & F & X).
    rewrite X, F. constructor; [auto | apply IH; exact X].
  - destruct (word_no_match _ M) as [->|(c & t & -> & A & X)].
    + constructor.
    + rewrite X. apply IH; exact X.
Qed.

(** ** [camel_case] *)

Lemma lower_upper_char c : lower_char (upper_char c) = lower_char c.
Proof. destruct c as [[] [] [] [] [] [] [] []]; reflexivity. Qed.

Lemma lower_lower_char c : lower_char (lower_char c) = lower_char c.
Proof. destruct c as [[] [] [] [] [] [] [] []]; reflexivity. Qed.

Lemma alnum_lower_char c : is_alnum (lower_char c) = is_alnum c.
Proof. destruct c as [[] [] [] [] [] [] [] []]; reflexivity. Qed.

Lemma alnum_upper_char c : is_alnum (upper_char c) = is_alnum c.
Proof. destruct c as [[] [] [] [] [] [] [] []]; reflexivity. Qed.

Lemma lower_capitalize w :
  map lower_char (capitalize w) = map lower_char w.
Proof.
  destruct w as [|c w]; [reflexivity|]. simpl.
  rewrite lower_upper_char, map_map. f_equal.
  apply map_ext. intros a. apply lower_lower_char.
Qed.

Lemma lower_concat_capitalize ws :
  map lower_char (concat (map capitalize ws)) = map lower_char (concat ws).
Proof.
  induction ws as [|w ws IH]; [reflexivity|]. cbn [map concat].
  rewrite !map_app, lower_capitalize, IH. reflexivity.
Qed.

(** X1: [camel_case] keeps the characters of its argument that one of the
    classes of the word pattern matches -- the ASCII letters and the
    decimal digits [\d] stands for -- in their order, and no other
    character; it changes at most the case of letters. *)
Theorem camel_case_keeps_word_chars (s : text) :
  map lower_char (camel_case s) = map lower_char (filter is_word_char s).
Proof.
  change is_word_char with is_alnum.
  unfold camel_case. rewrite <- findall_words_concat.
  destruct (findall RE_WORDS s) as [|w ws]; [reflexivity|].
  cbn [concat]. rewrite !map_app, lower_concat_capitalize. reflexivity.
Qed.

Lemma alnum_capitalize (w : text) :
  forallb is_alnum (capitalize w) = forallb is_alnum w.
Proof.
  destruct w as [|c w]; [reflexivity|]. simpl.
  rewrite alnum_upper_char. f_equal.
  induction w as [|a w IH]; [reflexivity|]. simpl.
  rewrite alnum_lower_char, IH. reflexivity.
Qed.

(** X2: every character of the result of [camel_case] is one that a class
    of the word pattern matches: an ASCII letter or a decimal digit as
    [\d] has it. *)
Theorem camel_case_only_word_chars (s : text) :
  forallb is_word_char (camel_case s) = true.
Proof.
  change is_word_char with is_alnum.
  unfold camel_case. pose proof (findall_words_alnum s) as F.
  destruct (findall RE_WORDS s) as [|w ws]; [reflexivity|].
  inversion F as [|? ? [_ A] Fs]; subst. clear F.
  rewrite forallb_app, A. cbn [andb].
  induction Fs as [|x ws [_ Ax] Fs IH]; [reflexivity|].
  cbn [map concat]. rewrite forallb_app, alnum_capitalize, Ax. exact IH.
Qed.

(** X3: [camel_case] gives the empty text exactly for a text none of
    whose characters is matched by a class of the word pattern: no ASCII
    letter and no decimal digit as [\d] has it. *)
Theorem camel_case_empty_iff (s : text) :
  camel_case s = [] <-> forall c, In c s -> is_word_char c = false.
Proof.
  change is_word_char with is_alnum.
  unfold camel_case.
  pose proof (findall_words_alnum s) as F.
  pose proof (findall_words_concat s) as C.
  destruct (findall RE_WORDS s) as [|w ws].
  - split; [|reflexivity]. intros _ c I.
    destruct (is_alnum c) eqn:A; [|reflexivity].
    assert (X : In c (filter is_alnum s)) by (apply filter_In; auto).
    rewrite <- C in X. destruct X.
  - inversion F as [|? ? [N A] Fs]; subst. split.
    + intros E. destruct w; [congruence | discriminate].
    + intros H. destruct w as [|c w]; [congruence|].
      assert (X : In c (filter is_alnum s))
        by (rewrite <- C; left; reflexivity).
      apply filter_In in X as [I Ac]. rewrite (H c I) in Ac. discriminate.
Qed.

(** ** Snake case *)

Lemma lower_not_upper c : is_lower c = true -> is_upper c = false.
Proof.
  destruct c as [[] [] [] [] [] [] [] []]; vm_compute; intros H;
    (reflexivity || discriminate H).
Qed.

(** A lower-case word, up to a character that is not a lower-case letter,
    is one match. *)
Lemma lower_word_match c w rest :
  is_lower c = true -> forallb is_lower w = true ->
  match rest with x :: _ => is_lower x = false | [] => True end ->
  wmatch_here RE_WORDS ((c :: w) ++ rest) = Some rest.
Proof.
  intros L F E. unfold wmatch_here, RE_WORDS. cbn -[wstar].
  rewrite (lower_not_upper c L), L.
  rewrite (wstar_longest text WLower w rest (fun s' => Some s') rest F eq_refl E).
  reflexivity.
Qed.

Lemma separator_no_match sep t :
  is_alnum sep = false -> wmatch_here RE_WORDS (sep :: t) = None.
Proof.
  intros A. destruct (wmatch_here RE_WORDS (sep :: t)) as [s'|] eqn:M;
    [|reflexivity].
  destruct (word_match _ _ M) as (w & E & N & F & _).
  destruct w as [|c w]; [congruence|]. simpl in E. injection E as <- _.
  simpl in F. rewrite A in F. discriminate.
Qed.

Lemma findall_snake sep : forall ws,
  is_alnum sep = false -> Forall lower_word ws ->
  findall RE_WORDS (join_with [sep] ws) = ws.
Proof.
  intros ws A F. induction F as [|w ws [N L] F IH]; [reflexivity|].
  destruct w as [|c w]; [congruence|]. simpl in L.
  apply andb_true_iff in L as [Lc Lw].
  assert (S : is_lower sep = false).
  { unfold is_alnum in A. apply orb_false_iff in A as [A _].
    apply orb_false_iff in A as [_ A]. exact A. }
  destruct ws as [|w' ws].
  - cbn [join_with].
    assert (G : findall RE_WORDS ((c :: w) ++ []) = [c :: w]).
    { rewrite findall_step.
      pose proof (lower_word_match c w [] Lc Lw I) as M. rewrite M.
      destruct (word_match _ _ M) as (x & E & _ & _ & Fx & X).
      rewrite Fx, X. apply app_inv_tail in E. subst x. reflexivity. }
    rewrite app_nil_r in G. exact G.
  - change (join_with [sep] ((c :: w) :: w' :: ws))
      with ((c :: w) ++ sep :: join_with [sep] (w' :: ws)).
    rewrite findall_step.
    pose proof (lower_word_match c w (sep :: join_with [sep] (w' :: ws))
                  Lc Lw S) as M.
    rewrite M. destruct (word_match _ _ M) as (x & E & _ & _ & Fx & X).
    rewrite Fx, X. apply app_inv_tail in E. subst x.
    cbn [app]. f_equal.
    rewrite findall_step, (separator_no_match sep _ A).
    unfold wscan_next. rewrite (separator_no_match sep _ A).
    cbn [app]. exact IH.
Qed.

Lemma lower_char_of_lower (t : text) :
  forallb is_lower t = true -> map lower_char t = t.
Proof.
  induction t as [|a t IH]; [reflexivity|]. simpl.
  rewrite andb_true_iff. intros [La Lt]. rewrite (IH Lt). f_equal.
  unfold lower_char. rewrite (lower_not_upper a La). reflexivity.
Qed.

(** X4: on lower-case words joined by a character that is neither a
    letter nor a digit, [camel_case] keeps the first word and puts the
    others after it with their first letter in upper case. *)
Theorem camel_case_of_snake_case (sep : ascii) (w : text) (ws : list text) :
  is_alnum sep = false -> Forall lower_word (w :: ws) ->
  camel_case (join_with [sep] (w :: ws)) = w ++ concat (map upper_first ws).
Proof.
  intros A F. unfold camel_case. rewrite (findall_snake sep _ A F).
  f_equal. f_equal. inversion F as [|? ? _ Fs]; subst.
  apply map_ext_in. intros x I.
  destruct (proj1 (Forall_forall _ _) Fs x I) as [_ L].
  destruct x as [|c t]; [reflexivity|]. simpl. f_equal.
  simpl in L. apply andb_true_iff in L as [_ L].
  apply lower_char_of_lower; exact L.
Qed.

Lemma camel_case_of_snake_case_witness :
  camel_case (join_with ["_"%char] [str "tvg"; str "logo"; str "url"])
  = str "tvg" ++ concat (map upper_first [str "logo"; str "url"]).
Proof.
  apply (camel_case_of_snake_case "_"%char (str "tvg") [str "logo"; str "url"]).
  - reflexivity.
  - repeat constructor; discriminate.
Defined.

(** ** What the groups of the stream pattern capture *)

Lemma groupdict_in r m k s :
  In (k, PStr s) (groupdict r m) -> cap_get k (m_caps m) = Some s.
Proof.
  unfold groupdict. intros H. apply in_map_iff in H as (n & E & _).
  injection E as -> E.
  destruct (cap_get k (m_caps m)); [injection E as ->; reflexivity | discriminate].
Qed.

(** A value of an entry is the capture of its group in a match at some
    place of the line. *)
Lemma stream_entry_capture (line k : text) (v : pyval) :
  In (k, v) (stream_entry line) ->
  exists s m pre u,
    v = PStr s /\ s <> [] /\ line = pre ++ u
    /\ match_here regex_stream u = Some m
    /\ cap_get k (m_caps m) = Some s.
Proof.
  intros H. apply stream_entry_in in H as (s & m & -> & N & I & G).
  apply finditer_in in I as (u & P & M).
  apply scan_position_suffix in P as [pre ->].
  apply groupdict_in in G. exists s, m, pre, u. auto.
Qed.

Ltac break_stream D :=
  unfold regex_stream, attr in D; cbn -[firstn length] in D;
  break_derivation; subst;
  repeat match goal with
         | H : (_ =? _)%char = true |- _ => apply Ascii.eqb_eq in H; subst
         end.

Lemma ext_inf_capture u m v :
  match_here regex_stream u = Some m ->
  cap_get (str "ext_inf") (m_caps m) = Some v ->
  u = str "#EXTINF:" ++ v ++ m_rest m
  /\ v <> [] /\ forallb is_digit v = true.
Proof.
  intros M G. apply match_here_sound in M.
  destruct m as [rest caps]. cbn [m_rest m_caps] in *.
  break_stream M; cbn -[firstn length Nat.sub] in G; try discriminate G.
  match type of G with
  | context [firstn _ (?c :: ?w ++ rest)] =>
      change (c :: w ++ rest) with ((c :: w) ++ rest) in G
  end.
  rewrite firstn_app_minus in G. injection G as <-.
  repeat split; [discriminate|].
  simpl. apply andb_true_iff; auto.
Qed.

Lemma not_quote_run (w : text) :
  forallb (cmem (CNot dq)) w = true -> ~ In dq w.
Proof.
  induction w as [|c w IH]; simpl; [tauto|].
  rewrite andb_true_iff, negb_true_iff. intros [C F] [H|H]; [|exact (IH F H)].
  subst c. rewrite Ascii.eqb_refl in C. discriminate.
Qed.

Lemma attr_capture u m key name v :
  In (key, name) attr_table ->
  match_here regex_stream u = Some m ->
  cap_get name (m_caps m) = Some v ->
  u = key ++ str "=" ++ quoted v ++ m_rest m
  /\ v <> [] /\ ~ In dq v.
Proof.
  intros T M G. apply match_here_sound in M.
  destruct m as [rest caps]. cbn [m_rest m_caps] in *.
  cbn in T.
  repeat (destruct T as [T|T]; [injection T as <- <-|]); [..|destruct T];
    break_stream M; cbn -[firstn length Nat.sub] in G; try discriminate G;
    match type of G with
    | context [firstn _ (?c :: ?w ++ ?r)] =>
        change (c :: w ++ r) with ((c :: w) ++ r) in G
    end;
    rewrite firstn_app_minus in G; injection G as <-;
    match goal with
    | C : negb (?c =? dq)%char = true, F : forallb _ ?w = true |- _ =>
        apply not_quote_run in F; apply negb_true_iff in C;
        apply Ascii.eqb_neq in C
    end;
    (split; [unfold quoted; cbn; rewrite <- app_assoc; reflexivity|]);
    (split; [discriminate|]);
    intros [I|I]; auto.
Qed.

Lemma chan_name_capture u m v :
  match_here regex_stream u = Some m ->
  cap_get (str "chan_name") (m_caps m) = Some v ->
  u = ","%char :: v ++ m_rest m /\ ~ In nl v.
Proof.
  intros M G. apply match_here_sound in M.
  destruct m as [rest caps]. cbn [m_rest m_caps] in *.
  break_stream M; cbn -[firstn length Nat.sub] in G; try discriminate G.
  rewrite firstn_app_minus in G. injection G as <-.
  split; [reflexivity|]. apply dot_run; assumption.
Qed.

Lemma digit_run_cons c w :
  is_digit c = true -> forallb (cmem CDigit) w = true -> digit_run (c :: w).
Proof.
  intros C F. split; [discriminate|]. simpl. rewrite C. exact F.
Qed.

Lemma not_nl c : negb (c =? nl)%char = true -> c <> nl.
Proof.
  rewrite negb_true_iff. intros E ->. rewrite Ascii.eqb_refl in E.
  discriminate.
Qed.

Lemma stream_url_capture u m v :
  match_here regex_stream u = Some m ->
  cap_get (str "stream_url") (m_caps m) = Some v ->
  u = v ++ m_rest m /\ stream_url_shape v.
Proof.
  intros M G. apply match_here_sound in M.
  destruct m as [rest caps]. cbn [m_rest m_caps] in *.
  break_stream M; cbn -[firstn length Nat.sub] in G; try discriminate G.
  match type of G with
  | context [firstn _ (_ :: _ :: _ :: _ :: _ :: _ :: _
                       :: ?a :: ?n1 ++ ?c1 :: ?b :: ?n2 ++ ?c2
                       :: ?c :: ?n3 ++ ?c3 :: ?d :: ?n4 ++ _
                       :: ?e :: ?n5 ++ _ :: _ :: _ :: _ :: _ :: _ :: _ :: _
                       :: ?tail ++ rest)] =>
      set (W := str "http://" ++ (a :: n1) ++ c1 :: (b :: n2) ++ c2
                :: (c :: n3) ++ c3 :: (d :: n4)
                ++ ":"%char :: (e :: n5) ++ str "/stream/" ++ tail);
      assert (E : "h"%char :: "t"%char :: "t"%char :: "p"%char :: ":"%char
                  :: "/"%char :: "/"%char
                  :: a :: n1 ++ c1 :: b :: n2 ++ c2
                  :: c :: n3 ++ c3 :: d :: n4 ++ ":"%char
                  :: e :: n5 ++ "/"%char :: "s"%char :: "t"%char :: "r"%char
                  :: "e"%char :: "a"%char :: "m"%char :: "/"%char
                  :: tail ++ rest = W ++ rest)
        by (unfold W; cbn; repeat (rewrite <- app_assoc; cbn); reflexivity);
      rewrite E in *; rewrite firstn_app_minus in G; injection G as <-;
      split; [reflexivity|];
      exists (a :: n1), c1, (b :: n2), c2, (c :: n3), c3, (d :: n4),
             (e :: n5), tail;
      split; [reflexivity|]
  end.
  repeat match goal with
         | |- _ /\ _ => split
         | |- digit_run _ => apply digit_run_cons; assumption
         | |- _ <> nl => apply not_nl; assumption
         | |- ~ In nl _ => apply dot_run; assumption
         end.
Qed.

(** ** What an entry can hold *)

(** X5: an [ext_inf] value is a run of one or more decimal digits that
    follows [#EXTINF:] somewhere in the line pair. *)
Theorem ext_inf_value_is_digits (line : text) (v : pyval) :
  In (str "ext_inf", v) (stream_entry line) ->
  exists ds pre post,
    v = PStr ds /\ digit_run ds /\ line = pre ++ str "#EXTINF:" ++ ds ++ post.
Proof.
  intros H.
  apply stream_entry_capture in H as (s & m & pre & u & -> & _ & -> & M & G).
  destruct (ext_inf_capture _ _ _ M G) as (-> & N & D).
  exists s, pre, (m_rest m). repeat split; auto.
Qed.

Lemma ext_inf_value_is_digits_witness :
  exists ds pre post,
    PStr (str "0") = PStr ds /\ digit_run ds
    /\ join_nl (sample_meta, sample_url) = pre ++ str "#EXTINF:" ++ ds ++ post.
Proof.
  apply (ext_inf_value_is_digits (join_nl (sample_meta, sample_url))).
  vm_compute. left; reflexivity.
Defined.

(** X6: the value of a quoted attribute is a text that is not empty,
    holds no double quote and stands between double quotes after [key=]
    somewhere in the line pair. *)
Theorem quoted_value_from_line (line key name : text) (v : pyval) :
  In (key, name) attr_table ->
  In (name, v) (stream_entry line) ->
  exists s pre post,
    v = PStr s /\ s <> [] /\ ~ In dq s
    /\ line = pre ++ key ++ str "=" ++ quoted s ++ post.
Proof.
  intros T H.
  apply stream_entry_capture in H as (s & m & pre & u & -> & _ & -> & M & G).
  destruct (attr_capture _ _ _ _ _ T M G) as (-> & N & Q).
  exists s, pre, (m_rest m). repeat split; auto.
Qed.

Lemma quoted_value_from_line_witness :
  exists s pre post,
    PStr (str "Sports") = PStr s /\ s <> [] /\ ~ In dq s
    /\ join_nl (sample_meta, sample_url)
       = pre ++ str "group-title" ++ str "=" ++ quoted s ++ post.
Proof.
  apply (quoted_value_from_line (join_nl (sample_meta, sample_url))
           (str "group-title") (str "group_title")).
  - vm_compute. tauto.
  - vm_compute. tauto.
Defined.

(** X7: a [stream_url] value is a part of the line pair of the form
    [http://], four runs of digits with any one character between them, a
    colon, a run of digits, [/stream/] and the rest of the line: a URL
    with [https], or with a host name that is not made of digits, is never
    reported. *)
Theorem stream_url_value_shape (line : text) (v : pyval) :
  In (str "stream_url", v) (stream_entry line) ->
  exists s pre post,
    v = PStr s /\ stream_url_shape s /\ line = pre ++ s ++ post.
Proof.
  intros H.
  apply stream_entry_capture in H as (s & m & pre & u & -> & _ & -> & M & G).
  destruct (stream_url_capture _ _ _ M G) as (-> & S).
  exists s, pre, (m_rest m). repeat split; auto.
Qed.

Lemma stream_url_value_shape_witness :
  exists s pre post,
    PStr sample_url = PStr s /\ stream_url_shape s
    /\ join_nl (sample_meta, sample_url) = pre ++ s ++ post.
Proof.
  apply (stream_url_value_shape (join_nl (sample_meta, sample_url))).
  vm_compute. tauto.
Defined.

Lemma dict_get_in (k : text) (d : dict) (v : pyval) :
  dict_get k d = Some v -> In (k, v) d.
Proof.
  induction d as [|[k' v'] d IH]; simpl; [discriminate|].
  destruct (text_eqb k k') eqn:E.
  - apply text_eqb_eq in E; subst k'. intros X; injection X as ->; auto.
  - auto.
Qed.

(** X8: when the only comma of a line pair is the last character of the
    metadata line, the entry has no [chan_name]: the empty name is left
    out. *)
Theorem no_chan_name_after_last_comma (pre url : text) :
  ~ In ","%char pre -> ~ In ","%char url ->
  dict_get (str "chan_name") (stream_entry (join_nl (pre ++ [","%char], url)))
  = None.
Proof.
  intros Np Nu.
  destruct (dict_get _ _) as [v|] eqn:G; [|reflexivity].
  apply dict_get_in, stream_entry_capture in G
    as (s & m & pre' & u & -> & N & E & M & C).
  destruct (chan_name_capture _ _ _ M C) as (-> & Nn).
  unfold join_nl in E; cbn [fst snd] in E.
  rewrite <- app_assoc in E. cbn [app] in E. symmetry in E.
  apply prefix_without in E as (p' & _ & E); [|exact Np].
  destruct p' as [|c p']; simpl in E.
  - injection E as E. destruct s as [|c s]; [congruence|].
    simpl in E. injection E as <- _. destruct Nn; left; reflexivity.
  - injection E as _ E. destruct Nu.
    destruct p' as [|c' p']; simpl in E; injection E as E1 E2.
    + discriminate E1.
    + rewrite E2. apply in_or_app; right; left; reflexivity.
Qed.

Lemma no_chan_name_after_last_comma_witness :
  dict_get (str "chan_name")
    (stream_entry (join_nl (str "#EXTINF:0 tvg-id=" ++ quoted (str "a")
                            ++ [","%char], sample_url)))
  = None.
Proof.
  apply (no_chan_name_after_last_comma
           (str "#EXTINF:0 tvg-id=" ++ quoted (str "a")) sample_url).
  - vm_compute; intuition discriminate.
  - vm_compute; intuition discriminate.
Defined.

(** X9: a line pair with none of the characters a match can start with
    gives an empty entry; the pair is not skipped. *)
Theorem entry_of_unrecognised_pair (line : text) :
  (forall c, In c line -> ~ In c stream_head_chars) ->
  stream_entry line = [].
Proof.
  intros H. destruct (stream_entry line) as [|[k v] e] eqn:E; [reflexivity|].
  assert (I : In (k, v) (stream_entry line)) by (rewrite E; left; reflexivity).
  apply stream_entry_capture in I as (s & m & pre & u & _ & _ & -> & M & _).
  apply match_here_sound, stream_match_cases in M
    as (c & t & n & x & -> & _ & I & _).
  destruct (H c).
  - apply in_or_app; right; left; reflexivity.
  - cbn in I. cbn.
    repeat (destruct I as [I|I]; [injection I as <- _; tauto|]).
    destruct I.
Qed.

Lemma entry_of_unrecognised_pair_witness :
  stream_entry (join_nl ([], str "mms://1.2.3.4/x")) = [].
Proof.
  apply (entry_of_unrecognised_pair (join_nl ([], str "mms://1.2.3.4/x"))).
  intros c I J. vm_compute in I, J.
  repeat (destruct I as [I|I];
          [subst c; repeat (destruct J as [J|J]; [discriminate J|]);
           destruct J|]).
  destruct I.
Defined.

(** ** The header, exactly *)

Lemma split_at_first (x : ascii) (a : text) : forall a' r r',
  ~ In x a -> a ++ x :: r = a' ++ x :: r' ->
  (a' = a /\ r' = r) \/ exists a'', a' = a ++ x :: a'' /\ r = a'' ++ x :: r'.
Proof.
  induction a as [|c a IH]; intros a' r r' N E.
  - destruct a' as [|c' a']; simpl in E.
    + injection E as ->. left; auto.
    + injection E as <- ->. right. exists a'; auto.
  - destruct a' as [|c' a']; simpl in E; injection E as E1 E2.
    + subst c. destruct N; left; reflexivity.
    + subst c'.
      destruct (IH a' r r') as [[-> ->]|(a'' & -> & ->)]; auto.
      * intros H; apply N; right; exact H.
      * right. exists a''; auto.
Qed.

(** A first line that is the header and nothing else, with no double
    quote in either value, is matched in one way. *)
Lemma header_exact_match (a b : text) (m : rmatch) :
  ~ In dq a -> ~ In dq b -> ~ In nl a -> ~ In nl b ->
  re_search regex_info
    (str "#EXTM3U url-tvg=" ++ quoted a ++ str " x-tvg-url=" ++ quoted b)
  = Some m ->
  m_caps m = [(str "x_tvg_url", b); (str "url_tvg", a)].
Proof.
  intros Na Nb La Lb S. simpl in S.
  destruct (match_here regex_info _) as [m'|] eqn:M in S.
  - injection S as ->.
    apply match_here_sound, header_derives in M
      as (a' & b' & E & _ & _ & ->).
    unfold quoted in E. cbn in E. injection E as E.
    rewrite <- !app_assoc in E. cbn in E.
    apply split_at_first in E as [[-> E]|(a'' & -> & E)]; [| |exact Na].
    + injection E as E. rewrite <- app_assoc in E. cbn in E.
      symmetry in E.
      apply split_at_first in E as [[-> _]|(b'' & _ & E)]; [| |exact Nb].
      * reflexivity.
      * destruct b''; discriminate E.
    + apply (f_equal (fun s => count_occ ascii_dec s dq)) in E.
      exfalso. revert E. cbn -[ascii_dec count_occ].
      repeat (rewrite ?count_occ_app;
              rewrite ?count_occ_cons_eq by reflexivity;
              rewrite ?count_occ_cons_neq by discriminate).
      rewrite (proj1 (count_occ_not_In ascii_dec b dq) Nb).
      simpl. lia.
  - exfalso.
    assert (D : derives regex_info
                  ((str "#EXTM3U url-tvg=" ++ quoted a
                    ++ str " x-tvg-url=" ++ quoted b) ++ []) [] []
                  [(str "x_tvg_url", b); (str "url_tvg", a)]).
    { apply header_derives. exists a, b. repeat split; auto. }
    rewrite app_nil_r in D.
    exact (match_here_none _ _ M _ _ D).
Qed.

(** ** Lines *)

Lemma splitlines_from_line (w : text) : forall acc rest,
  no_break w ->
  splitlines_from acc (w ++ rest) = splitlines_from (rev w ++ acc) rest.
Proof.
  unfold no_break. induction w as [|c w IH]; intros acc rest N.
  - reflexivity.
  - simpl in N. apply andb_true_iff in N as [C N].
    apply negb_true_iff in C. cbn [app splitlines_from]. rewrite C.
    rewrite (IH (c :: acc) rest N). cbn [rev]. rewrite <- app_assoc.
    reflexivity.
Qed.

Lemma unlines_head_not_nl sep lines :
  line_end sep -> sep <> [nl] -> Forall no_break lines ->
  match unlines sep lines with d :: _ => d <> nl | [] => True end.
Proof.
  intros E N F. destruct F as [|l lines Nl F]; [exact I|].
  unfold unlines. cbn [map concat].
  destruct l as [|c l].
  - destruct E as [->|(c & -> & _)]; cbn; [discriminate|].
    intros ->; auto.
  - cbn. unfold no_break in Nl. simpl in Nl.
    apply andb_true_iff in Nl as [C _]. intros ->. discriminate.
Qed.

(** [splitlines] gives back lines that were each ended by a line end. *)
Lemma splitlines_unlines sep lines :
  line_end sep -> Forall no_break lines ->
  splitlines (unlines sep lines) = lines.
Proof.
  intros E F. unfold splitlines.
  induction F as [|l lines Nl F IH]; [reflexivity|].
  change (unlines sep (l :: lines)) with ((l ++ sep) ++ unlines sep lines).
  rewrite <- app_assoc, (splitlines_from_line l [] _ Nl), app_nil_r.
  destruct E as [->|(c & -> & B)].
  - cbn [app splitlines_from]. cbn [is_linebreak].
    change (is_linebreak cr) with true. cbn iota.
    rewrite Ascii.eqb_refl, rev_involutive. change (Ascii.eqb nl nl) with true.
    cbn iota. rewrite IH. reflexivity.
  - cbn [app splitlines_from]. rewrite B, rev_involutive. f_equal.
    destruct (Ascii.eqb c cr) eqn:C; [|exact IH].
    apply Ascii.eqb_eq in C; subst c.
    pose proof (unlines_head_not_nl [cr] lines
                  (or_intror (ex_intro _ cr (conj eq_refl B)))
                  ltac:(discriminate) F) as H.
    destruct (unlines [cr] lines) as [|d t] eqn:U; [exact IH|].
    destruct (Ascii.eqb d nl) eqn:D; [|exact IH].
    apply Ascii.eqb_eq in D. destruct (H D).
Qed.

(** X10: the parser gives the same result whatever line end closes the
    lines, [\n], [\r\n] or another line boundary. *)
Theorem line_end_does_not_matter (sep1 sep2 : text) (lines : list text) :
  line_end sep1 -> line_end sep2 -> Forall no_break lines ->
  m3u_to_json (unlines sep1 lines) = m3u_to_json (unlines sep2 lines).
Proof.
  intros E1 E2 F. unfold m3u_to_json, m3u_data.
  rewrite !splitlines_unlines by assumption. reflexivity.
Qed.

Lemma line_end_does_not_matter_witness :
  m3u_to_json (unlines [cr; nl] [sample_header; sample_meta; sample_url])
  = m3u_to_json (unlines [nl] [sample_header; sample_meta; sample_url]).
Proof.
  apply (line_end_does_not_matter [cr; nl] [nl]
           [sample_header; sample_meta; sample_url]).
  - left; reflexivity.
  - right; exists nl; split; reflexivity.
  - repeat constructor.
Defined.

Lemma no_break_rev_cons c acc :
  is_linebreak c = false -> no_break (rev acc) -> no_break (rev (c :: acc)).
Proof.
  unfold no_break. intros C N. cbn [rev]. rewrite forallb_app, N. simpl.
  rewrite C. reflexivity.
Qed.

(** No line of [splitlines] holds a line boundary. *)
Lemma splitlines_from_no_break : forall n s acc,
  length s <= n -> no_break (rev acc) ->
  Forall no_break (splitlines_from acc s).
Proof.
  induction n as [|n IH]; intros s acc L N.
  - destruct s; [|simpl in L; lia]. simpl.
    destruct acc; [constructor | repeat constructor; exact N].
  - destruct s as [|c s].
    + simpl. destruct acc; [constructor | repeat constructor; exact N].
    + simpl in L. cbn [splitlines_from].
      destruct (is_linebreak c) eqn:B.
      * constructor; [exact N|].
        destruct (Ascii.eqb c cr); [|apply IH; [lia | reflexivity]].
        destruct s as [|d s']; [apply IH; [simpl; lia | reflexivity]|].
        destruct (Ascii.eqb d nl); apply IH; simpl in *; try lia; reflexivity.
      * apply IH; [lia|]. apply no_break_rev_cons; assumption.
Qed.

Lemma splitlines_no_break s : Forall no_break (splitlines s).
Proof.
  apply (splitlines_from_no_break (length s)); [lia | reflexivity].
Qed.

Lemma no_break_no_nl l : no_break l -> ~ In nl l.
Proof.
  unfold no_break. intros N I.
  apply (proj1 (forallb_forall _ _) N) in I. discriminate.
Qed.

(** X11: when the first line is the header and nothing else and neither
    value holds a double quote, the document has the two values as they
    stand in the line. *)
Theorem header_values_verbatim (src a b : text) (body : list text) :
  splitlines src
  = (str "#EXTM3U url-tvg=" ++ quoted a ++ str " x-tvg-url=" ++ quoted b)
      :: body ->
  ~ In dq a -> ~ In dq b ->
  exists data,
    m3u_data src = Ok data
    /\ dict_get (str "url_tvg") data = Some (PStr a)
    /\ dict_get (str "x_tvg_url") data = Some (PStr b).
Proof.
  intros L Na Nb.
  pose proof (splitlines_no_break src) as F. rewrite L in F.
  apply Forall_inv, no_break_no_nl in F.
  assert (La : ~ In nl a).
  { intros I; apply F. unfold quoted.
    repeat (rewrite in_app_iff; cbn [In]). tauto. }
  assert (Lb : ~ In nl b).
  { intros I; apply F. unfold quoted.
    repeat (rewrite in_app_iff; cbn [In]). tauto. }
  destruct (re_search regex_info
              (str "#EXTM3U url-tvg=" ++ quoted a
               ++ str " x-tvg-url=" ++ quoted b)) as [m|] eqn:S.
  - pose proof (header_exact_match a b m Na Nb La Lb S) as C.
    unfold m3u_data, search_groupdict.
    rewrite L; cbn [pop0 bind fst snd]. rewrite S. cbn [bind].
    unfold groupdict. rewrite C. eexists; split; [reflexivity|].
    split; reflexivity.
  - exfalso.
    assert (H : header_line
                  (str "#EXTM3U url-tvg=" ++ quoted a
                   ++ str " x-tvg-url=" ++ quoted b)).
    { exists [], a, b, []. rewrite app_nil_r. auto. }
    apply header_search in H as [m H]. congruence.
Qed.

Lemma header_values_verbatim_witness :
  exists data,
    m3u_data sample_playlist = Ok data
    /\ dict_get (str "url_tvg") data = Some (PStr (str "http://a/tvg.xml"))
    /\ dict_get (str "x_tvg_url") data = Some (PStr (str "http://a/x")).
Proof.
  apply (header_values_verbatim sample_playlist (str "http://a/tvg.xml")
           (str "http://a/x") [sample_meta; sample_url]).
  - vm_compute; reflexivity.
  - vm_compute; intuition discriminate.
  - vm_compute; intuition discriminate.
Defined.

(** ** The keys of an entry *)

Lemma dict_set_keys (k : text) (v : pyval) (d : dict) :
  map fst (dict_set k v d)
  = if existsb (text_eqb k) (map fst d) then map fst d else map fst d ++ [k].
Proof.
  induction d as [|[k' v'] d IH]; simpl; [reflexivity|].
  destruct (text_eqb k k') eqn:E; simpl; [reflexivity|].
  rewrite IH. destruct (existsb (text_eqb k) (map fst d)); reflexivity.
Qed.

Lemma dict_set_nodup (k : text) (v : pyval) (d : dict) :
  NoDup (map fst d) -> NoDup (map fst (dict_set k v d)).
Proof.
  intros N. rewrite dict_set_keys.
  destruct (existsb (text_eqb k) (map fst d)) eqn:E; [exact N|].
  apply NoDup_app; [exact N | repeat constructor; auto |].
  intros x I [X|[]]. subst x.
  assert (X : existsb (text_eqb k) (map fst d) = true)
    by (apply existsb_exists; exists k; split; [exact I | apply text_eqb_refl]).
  congruence.
Qed.

Lemma dict_update_nodup (items : list (text * pyval)) : forall d,
  NoDup (map fst d) -> NoDup (map fst (dict_update d items)).
Proof.
  induction items as [|[k v] items IH]; intros d N; [exact N|].
  apply IH. apply dict_set_nodup. exact N.
Qed.

(** X12: no key stands twice in an entry, and every key is one of the
    nine group names of the stream pattern; an entry has at most nine
    keys. *)
Theorem entry_keys (line : text) :
  NoDup (map fst (stream_entry line))
  /\ incl (map fst (stream_entry line))
          [str "ext_inf"; str "channelID"; str "tvg_chno"; str "tvg_name";
           str "tvg_id"; str "tvg_logo"; str "group_title"; str "chan_name";
           str "stream_url"]
  /\ length (stream_entry line) <= 9.
Proof.
  assert (N : NoDup (map fst (stream_entry line)))
    by (apply dict_update_nodup; constructor).
  assert (I : incl (map fst (stream_entry line)) (group_names regex_stream)).
  { intros k H. apply in_map_iff in H as ([k' v] & <- & H).
    apply stream_entry_in in H as (s & m & _ & _ & _ & G).
    unfold groupdict in G. apply in_map_iff in G as (n & E & G).
    injection E as <- _. exact G. }
  split; [exact N|]. split; [exact I|].
  rewrite <- (length_map fst).
  apply (NoDup_incl_length N I).
Qed.

(** ** The JSON text *)

Lemma pyval_induction (P : pyval -> Prop) :
  P PNone -> (forall s, P (PStr s)) ->
  (forall l, Forall P l -> P (PList l)) ->
  (forall d, Forall (fun kv => P (snd kv)) d -> P (PDict d)) ->
  forall v, P v.
Proof.
  intros HN HS HL HD.
  exact (fix IH (v : pyval) : P v :=
           match v return P v with
           | PNone => HN
           | PStr s => HS s
           | PList l =>
               HL l ((fix go (l : list pyval) : Forall P l :=
                        match l return Forall P l with
                        | [] => Forall_nil P
                        | x :: t => Forall_cons x (IH x) (go t)
                        end) l)
           | PDict d =>
               HD d ((fix go (d : list (text * pyval))
                      : Forall (fun kv => P (snd kv)) d :=
                        match d return Forall (fun kv => P (snd kv)) d with
                        | [] => Forall_nil _
                        | kv :: t =>
                            Forall_cons kv
                              (match kv return P (snd kv) with
                               | (k, x) => IH x
                               end) (go t)
                        end) d)
           end).
Qed.

Lemma json_escape_printable c : forallb printable (json_escape c) = true.
Proof. destruct c as [[] [] [] [] [] [] [] []]; reflexivity. Qed.

Lemma json_string_printable s : forallb printable (json_string s) = true.
Proof.
  unfold json_string. cbn [forallb]. rewrite forallb_app.
  change (printable dq) with true. cbn [andb forallb].
  rewrite andb_true_r.
  induction s as [|c s IH]; [reflexivity|]. cbn [flat_map].
  rewrite forallb_app, json_escape_printable, IH. reflexivity.
Qed.

Lemma join_with_printable sep l :
  forallb printable sep = true ->
  Forall (fun x => forallb printable x = true) l ->
  forallb printable (join_with sep l) = true.
Proof.
  intros S F. induction F as [|x l X F IH]; [reflexivity|].
  destruct l as [|y l]; [exact X|].
  change (join_with sep (x :: y :: l))
    with (x ++ sep ++ join_with sep (y :: l)).
  rewrite !forallb_app, X, S, IH. reflexivity.
Qed.

Lemma json_dumps_printable v : forallb printable (json_dumps v) = true.
Proof.
  induction v as [|s|l IH|d IH] using pyval_induction.
  - reflexivity.
  - apply json_string_printable.
  - cbn [json_dumps]. rewrite !forallb_app.
    rewrite join_with_printable; [reflexivity | reflexivity |].
    apply Forall_map. exact IH.
  - cbn [json_dumps]. rewrite !forallb_app.
    rewrite join_with_printable; [reflexivity | reflexivity |].
    apply Forall_map. revert IH. apply Forall_impl.
    intros [k x] X. cbn [snd] in X.
    rewrite !forallb_app, json_string_printable, X. reflexivity.
Qed.

(** X13: the text the parser returns is made of printable ASCII
    characters only, whatever the playlist holds. *)
Theorem m3u_json_is_printable_ascii (src out : text) :
  m3u_to_json src = Ok out -> forallb printable out = true.
Proof.
  unfold m3u_to_json. destruct (m3u_data src) as [data|e]; [|discriminate].
  cbn [bind]. intros E.
  replace out with (json_dumps (PDict data)) by congruence.
  apply json_dumps_printable.
Qed.

Lemma m3u_json_is_printable_ascii_witness :
  forallb printable
    match m3u_to_json sample_playlist with Ok out => out | Raise _ => [] end
  = true.
Proof.
  apply (m3u_json_is_printable_ascii sample_playlist). vm_compute; reflexivity.
Defined.

(** ** The guide, element by element *)

Lemma channels_loop_closed (channels : list record) : forall acc,
  Forall arity4 channels ->
  channels_loop acc channels = Ok (acc ++ concat (map channel_text channels)).
Proof.
  induction channels as [|c channels IH]; intros acc F.
  - simpl. rewrite app_nil_r. reflexivity.
  - inversion F as [|? ? A F']; subst. unfold arity4 in A.
    destruct c as [|a [|b [|x [|d [|e c]]]]]; try discriminate A.
    cbn [channels_loop unpack4 bind]. rewrite (IH _ F').
    cbn [map concat]. rewrite <- app_assoc. reflexivity.
Qed.

Lemma programs_loop_closed (programs : list record) : forall acc,
  Forall arity5or6 programs ->
  programs_loop acc programs = Ok (acc ++ concat (map program_text programs)).
Proof.
  induction programs as [|p programs IH]; intros acc F.
  - simpl. rewrite app_nil_r. reflexivity.
  - inversion F as [|? ? A F']; subst. unfold arity5or6 in A.
    destruct p as [|a [|b [|c [|d [|e [|f [|g p]]]]]]];
      try (destruct A as [A|A]; discriminate A);
      cbn [programs_loop program_fields length Nat.eqb unpack5 unpack6 bind];
      rewrite (IH _ F'); cbn [map concat]; rewrite <- app_assoc;
      reflexivity.
Qed.

Lemma gen_closed_form
      (furl_origin : text -> result text)
      (channels programs : list record) (url origin : text) :
  furl_origin url = Ok origin ->
  Forall arity4 channels -> Forall arity5or6 programs ->
  gen_xmltv_xml furl_origin channels programs url
  = Ok (xml_header origin
        ++ concat (map channel_text channels)
        ++ concat (map program_text programs)
        ++ xml_footer).
Proof.
  intros O Fc Fp. unfold gen_xmltv_xml. rewrite O. cbn [bind].
  rewrite (channels_loop_closed channels [] Fc). cbn [bind app].
  rewrite (programs_loop_closed programs [] Fp). reflexivity.
Qed.

(** X14: for records of the right arities the guide is the header, then
    one channel element for each channel record, in the order given, then
    one programme element for each program record, in the order given,
    then the closing line; the values stand in the elements as they are,
    with no escaping. *)
Theorem gen_elements_in_order
        (furl_origin : text -> result text)
        (channels programs : list record) (url origin : text) :
  furl_origin url = Ok origin ->
  Forall arity4 channels -> Forall arity5or6 programs ->
  gen_xmltv_xml furl_origin channels programs url
  = Ok (xml_header origin
        ++ concat (map channel_text channels)
        ++ concat (map program_text programs)
        ++ xml_footer).
Proof. exact (gen_closed_form furl_origin channels programs url origin). Qed.

Lemma gen_elements_in_order_witness :
  gen_xmltv_xml sample_origin [sample_channel] [sample_program] sample_base_url
  = Ok (xml_header (str "http://host:8080")
        ++ concat (map channel_text [sample_channel])
        ++ concat (map program_text [sample_program])
        ++ xml_footer).
Proof.
  apply (gen_elements_in_order sample_origin [sample_channel]
           [sample_program] sample_base_url (str "http://host:8080")).
  - reflexivity.
  - repeat constructor.
  - repeat constructor.
Defined.

Lemma channel_text_firstn (c c' : record) :
  arity4 c -> arity4 c' -> firstn 3 c = firstn 3 c' ->
  channel_text c = channel_text c'.
Proof.
  unfold arity4.
  destruct c as [|a [|b [|x [|d [|e c]]]]]; try discriminate;
    destruct c' as [|a' [|b' [|x' [|d' [|e' c']]]]]; try discriminate.
  intros _ _ E. injection E as -> -> ->. reflexivity.
Qed.

Lemma program_text_firstn (p p' : record) :
  arity5or6 p -> arity5or6 p' -> firstn 5 p = firstn 5 p' ->
  program_text p = program_text p'.
Proof.
  unfold arity5or6. intros A A' E.
  destruct p as [|a [|b [|c [|d [|e p]]]]];
    try (destruct A as [A|A]; discriminate A);
    destruct p' as [|a' [|b' [|c' [|d' [|e' p']]]]];
    try (destruct A' as [A'|A']; discriminate A').
  cbn [firstn] in E. injection E as -> -> -> -> ->. reflexivity.
Qed.

(** X15: the fourth value of a channel record and the sixth value of a
    program record have no effect on the guide: records of the right
    arities that agree on their first three, respectively five, values
    give the same result. *)
Theorem gen_ignores_unused_values
        (furl_origin : text -> result text)
        (channels channels' programs programs' : list record) (url : text) :
  Forall2 (fun c c' => arity4 c /\ arity4 c' /\ firstn 3 c = firstn 3 c')
    channels channels' ->
  Forall2 (fun p p' => arity5or6 p /\ arity5or6 p'
                       /\ firstn 5 p = firstn 5 p')
    programs programs' ->
  gen_xmltv_xml furl_origin channels programs url
  = gen_xmltv_xml furl_origin channels' programs' url.
Proof.
  intros Hc Hp.
  destruct (furl_origin url) as [origin|e] eqn:O.
  - assert (Fc : Forall arity4 channels /\ Forall arity4 channels'
                 /\ map channel_text channels = map channel_text channels').
    { induction Hc as [|c c' l l' (A & A' & E) _ (F & F' & M)];
        [repeat split; constructor|].
      repeat split; try (constructor; assumption).
      cbn [map]. rewrite M, (channel_text_firstn c c' A A' E). reflexivity. }
    assert (Fp : Forall arity5or6 programs /\ Forall arity5or6 programs'
                 /\ map program_text programs = map program_text programs').
    { induction Hp as [|p p' l l' (A & A' & E) _ (F & F' & M)];
        [repeat split; constructor|].
      repeat split; try (constructor; assumption).
      cbn [map]. rewrite M, (program_text_firstn p p' A A' E). reflexivity. }
    destruct Fc as (Fc & Fc' & Mc). destruct Fp as (Fp & Fp' & Mp).
    rewrite (gen_closed_form furl_origin channels programs url origin O Fc Fp).
    rewrite (gen_closed_form furl_origin channels' programs' url origin O
               Fc' Fp').
    rewrite Mc, Mp. reflexivity.
  - unfold gen_xmltv_xml. rewrite O. reflexivity.
Qed.

Lemma gen_ignores_unused_values_witness :
  gen_xmltv_xml sample_origin [sample_channel] [sample_program] sample_base_url
  = gen_xmltv_xml sample_origin
      [[str "1"; str "BBC"; str "http://x/logo.png"; str "another"]]
      [sample_program ++ [str "icon.png"]] sample_base_url.
Proof.
  apply (gen_ignores_unused_values sample_origin).
  - repeat constructor.
  - constructor; [|constructor].
    split; [left; reflexivity|]. split; [right; reflexivity | reflexivity].
Defined.

(** X16: for a base URL of which [furl] gives the origin, one record of a
    wrong arity, wherever it stands in either list, makes the generator
    raise [ValueError]; no text is returned. *)
Theorem gen_raises_on_any_bad_record
        (furl_origin : text -> result text)
        (channels programs : list record) (url origin : text) :
  furl_origin url = Ok origin ->
  Exists (fun c => ~ arity4 c) channels
  \/ Exists (fun p => ~ arity5or6 p) programs ->
  gen_xmltv_xml furl_origin channels programs url = Raise ValueError.
Proof.
  intros O B.
  destruct (gen_cases furl_origin channels programs url origin O)
    as [(Fc & Fp & _)|[_ R]]; [|exact R].
  exfalso. destruct B as [B|B]; apply Exists_exists in B as (x & I & N);
    apply N; [exact (proj1 (Forall_forall _ _) Fc x I)
             | exact (proj1 (Forall_forall _ _) Fp x I)].
Qed.

Lemma gen_raises_on_any_bad_record_witness :
  gen_xmltv_xml sample_origin [sample_channel]
    [sample_program; [str "1"; str "News"]] sample_base_url
  = Raise ValueError.
Proof.
  apply (gen_raises_on_any_bad_record sample_origin [sample_channel]
           [sample_program; [str "1"; str "News"]] sample_base_url
           (str "http://host:8080")).
  - reflexivity.
  - right. apply Exists_cons_tl. apply Exists_cons_hd.
    unfold arity5or6. simpl. intros [H|H]; discriminate H.
Defined.

Example camel_case_samples :
  camel_case (str "tvg-logo url") = str "tvgLogoUrl"
  /\ camel_case (str "HTTPResponse code") = str "HTTPResponseCode"
  /\ camel_case (str "HTTP_RESPONSE") = str "HTTPResponse"
  /\ camel_case (str "abc123def") = str "abc123Def"
  /\ camel_case (str "a_B_c") = str "aBC"
  /\ camel_case (str "aBC") = str "aBc"
  /\ camel_case (str "-- --") = [].
Proof. repeat split. Qed.
